(** * Page behaviours of static/js/main.js

  A shallow embedding of the event handlers that main.js attaches on
  DOMContentLoaded, and of the properties the specification states about
  them.  Each behaviour lives in a module of its own; handlers are functions
  from the state they read to the state they leave, promise chains are
  functions of the outcome the promise settles with, and callbacks handed to
  [setTimeout] are recorded as data and run by an explicit function.

  JavaScript strings are Rocq strings: sequences of code units, here in the
  range 0..255, which covers every literal of the file. *)

From Stdlib Require Import Ascii NArith.
From stdpp Require Import base list strings gmap pretty.

Local Open Scope N_scope.

(** ** Strings *)

Module JsString.

Definition chars (s : string) : list ascii := String.list_ascii_of_string s.
Definition str (l : list ascii) : string := String.string_of_list_ascii l.

(** [\d] without the unicode flag: the ten ASCII digits. *)
Definition is_digit (c : ascii) : bool :=
  match c with
  | "0" | "1" | "2" | "3" | "4" | "5" | "6" | "7" | "8" | "9" => true
  | _ => false
  end%char.

Definition digit_value (c : ascii) : N := N_of_ascii c - 48.

(** ToBoolean on a string: only the empty string is falsy. *)
Definition truthy (s : string) : bool :=
  match s with EmptyString => false | String _ _ => true end.

(** [a || b] on strings. *)
Definition or_else (a b : string) : string := if truthy a then a else b.

(** Number::toString for a non-negative integer below 10^21, which every
    string length is: its decimal digits. *)
Definition of_length (n : N) : string := pretty n.

(** [contains t s]: [t] occurs in [s] as a substring. *)
Definition contains (t s : string) : Prop := ∃ pre post, s = pre +:+ t +:+ post.

End JsString.

Import JsString.

(** ** Regular expressions

  The fragment main.js uses: a sequence of capture groups, each a digit
  class with a quantifier, matched greedily with backtracking, and
  [String.prototype.replace] with a replacement pattern of literals and
  group references. *)

Module Regex.

Inductive cls := Digit | NonDigit.

Definition in_cls (k : cls) (c : ascii) : bool :=
  match k with Digit => is_digit c | NonDigit => negb (is_digit c) end.

Inductive quant :=
| Times (n : nat)   (* {n} *)
| Plus.             (* +   *)

(** One capture group [(\d{n})] or [(\d+)]. *)
Definition group : Type := cls * quant.
Definition regex : Type := list group.

(** The longest prefix made of members of the class. *)
Fixpoint run (k : cls) (s : list ascii) : nat :=
  match s with
  | c :: s' => if in_cls k c then S (run k s') else 0%nat
  | [] => 0%nat
  end.

(** Tries [j], [j-1], ..., 1 code units for a [+] group and hands the rest
    to the continuation: the first split the continuation accepts wins. *)
Fixpoint backtrack (j : nat) (s : list ascii)
    (k : list ascii → option (list (list ascii) * list ascii))
    : option (list (list ascii) * list ascii) :=
  match j with
  | O => None
  | S j' =>
      match k (drop j s) with
      | Some (caps, rest) => Some (take j s :: caps, rest)
      | None => backtrack j' s k
      end
  end.

(** Anchored match of the groups at the head of [s]: the captures and what
    follows the match. *)
Fixpoint match_here (r : regex) (s : list ascii)
    : option (list (list ascii) * list ascii) :=
  match r with
  | [] => Some ([], s)
  | (k, Times n) :: r' =>
      if (n <=? run k s)%nat then
        match match_here r' (drop n s) with
        | Some (caps, rest) => Some (take n s :: caps, rest)
        | None => None
        end
      else None
  | (k, Plus) :: r' => backtrack (run k s) s (match_here r')
  end.

(** RegExp exec without the global flag: the leftmost position at which the
    pattern matches; returns what precedes the match, the captures, and
    what follows. *)
Fixpoint exec (r : regex) (s : list ascii)
    : option (list ascii * list (list ascii) * list ascii) :=
  match match_here r s with
  | Some (caps, rest) => Some ([], caps, rest)
  | None =>
      match s with
      | [] => None
      | c :: s' =>
          match exec r s' with
          | Some (pre, caps, rest) => Some (c :: pre, caps, rest)
          | None => None
          end
      end
  end.

(** A replacement pattern: literal text and [$n] references.  Every
    reference in main.js names a group of its pattern; one beyond the groups,
    which JavaScript leaves as text, does not occur. *)
Inductive piece := Lit (t : string) | Ref (n : nat).

Definition expand (caps : list (list ascii)) (p : piece) : list ascii :=
  match p with
  | Lit t => chars t
  | Ref n => default [] (caps !! pred n)
  end.

Definition substitute (tmpl : list piece) (caps : list (list ascii)) : list ascii :=
  concat (expand caps <$> tmpl).

(** [s.replace(r, tmpl)] for a regular expression without the [g] flag. *)
Definition replace (r : regex) (tmpl : list piece) (s : string) : string :=
  match exec r (chars s) with
  | Some (pre, caps, rest) => str (pre ++ substitute tmpl caps ++ rest)
  | None => s
  end.

(** [s.replace(/K/g, by)] for a single character class [K]: every code unit
    of the class is replaced, the others are kept. *)
Fixpoint replace_cls_all (k : cls) (by_ : list ascii) (s : list ascii) : list ascii :=
  match s with
  | [] => []
  | c :: s' =>
      if in_cls k c then by_ ++ replace_cls_all k by_ s'
      else c :: replace_cls_all k by_ s'
  end.

Definition replace_all (k : cls) (by_ : string) (s : string) : string :=
  str (replace_cls_all k (chars by_) (chars s)).

End Regex.

(** ** Phone number formatting: the [input] listener of [input[type="tel"]] *)

Module Phone.
Import Regex.

(** [/(\d{3})(\d+)/] and ['$1-$2'] *)
Definition re2 : regex := [(Digit, Times 3); (Digit, Plus)].
Definition tmpl2 : list piece := [Ref 1; Lit "-"; Ref 2].

(** [/(\d{3})(\d{3})(\d+)/] and ['$1-$2-$3'] *)
Definition re3 : regex := [(Digit, Times 3); (Digit, Times 3); (Digit, Plus)].
Definition tmpl3 : list piece := [Ref 1; Lit "-"; Ref 2; Lit "-"; Ref 3].

(** [/(\d{3})(\d{3})(\d{4})(\d+)/] and ['$1-$2-$3-$4'] *)
Definition re4 : regex :=
  [(Digit, Times 3); (Digit, Times 3); (Digit, Times 4); (Digit, Plus)].
Definition tmpl4 : list piece :=
  [Ref 1; Lit "-"; Ref 2; Lit "-"; Ref 3; Lit "-"; Ref 4].

(** The value the listener leaves in the field, from the value it finds. *)
Definition format (v : string) : string :=
  let value := replace_all NonDigit "" v in
  let n := String.length value in
  if ((3 <? n) && (n <=? 6))%nat then replace re2 tmpl2 value
  else if ((6 <? n) && (n <=? 10))%nat then replace re3 tmpl3 value
  else if (10 <? n)%nat then replace re4 tmpl4 value
  else value.

(** The field, and the listener, which ends with [this.value = value]. *)
Record input := { value : string }.

Definition on_input (i : input) : input := {| value := format (value i) |}.

(** The digits of a value, in order. *)
Definition digits (v : string) : list ascii := filter (λ c, is_digit c = true) (chars v).

End Phone.

(** ** Class attributes and class lists *)

Module Dom.

(** ASCII white space, which separates the tokens of a class attribute. *)
Definition is_ascii_ws (c : ascii) : bool :=
  match c with
  | "009" | "010" | "012" | "013" | " " => true
  | _ => false
  end%char.

(** Splits at white space; [cur] is the token being read, last code unit
    first. *)
Fixpoint split_ws (cur : list ascii) (s : list ascii) : list string :=
  match s with
  | [] => match cur with [] => [] | _ => [str (rev cur)] end
  | c :: s' =>
      if is_ascii_ws c then
        match cur with
        | [] => split_ws [] s'
        | _ => str (rev cur) :: split_ws [] s'
        end
      else split_ws (c :: cur) s'
  end.

(** The tokens of a class attribute, in order.  The ordered set the DOM
    keeps drops repeated tokens and so has the same members. *)
Definition class_tokens (className : string) : list string :=
  split_ws [] (chars className).

(** [classList.contains(t)] on an element whose class attribute is
    [className]. *)
Definition has_class (t : string) (className : string) : Prop :=
  t ∈ class_tokens className.

(** [classList.add(t)] and [classList.remove(t)] on the token list. *)
Definition classList_add (t : string) (l : list string) : list string :=
  if decide (t ∈ l) then l else l ++ [t].

Definition classList_remove (t : string) (l : list string) : list string :=
  filter (λ u, u ≠ t) l.

(** The double quote and the line feed, for the markup literals. *)
Definition dq : string := String "034"%char EmptyString.
Definition nl : string := String "010"%char EmptyString.

End Dom.

(** ** Form validation: the [submit] listener of every [form] *)

Module Validation.
Import Dom.

(** The parts of the submit event the listener acts on. *)
Record event := {
  defaultPrevented : bool;
  propagationStopped : bool
}.

Definition preventDefault (e : event) : event :=
  {| defaultPrevented := true; propagationStopped := propagationStopped e |}.

Definition stopPropagation (e : event) : event :=
  {| defaultPrevented := defaultPrevented e; propagationStopped := true |}.

(** A form: what [checkValidity()] answers for its current field values, and
    its class list. *)
Record form := {
  checkValidity : bool;
  classList : list string
}.

Definition on_submit (f : form) (e : event) : form * event :=
  let e' :=
    if negb (checkValidity f) then stopPropagation (preventDefault e) else e in
  ({| checkValidity := checkValidity f;
      classList := classList_add "was-validated" (classList f) |}, e').

End Validation.

(** ** Character counter: [textarea[data-max-length]] *)

Module Counter.
Import Dom.

(** White space and line terminators that ToNumber strips from both ends of
    a string (those below code unit 256). *)
Definition is_str_ws (c : ascii) : bool :=
  match c with
  | "009" | "010" | "011" | "012" | "013" | " " | "160" => true
  | _ => false
  end%char.

Fixpoint trim_start (s : list ascii) : list ascii :=
  match s with
  | c :: s' => if is_str_ws c then trim_start s' else s
  | [] => []
  end.

Definition trim (s : list ascii) : list ascii :=
  rev (trim_start (rev (trim_start s))).

(** The value of a run of decimal digits read after [acc]; [None] if a code
    unit is not a digit. *)
Fixpoint digits_value (acc : N) (s : list ascii) : option N :=
  match s with
  | [] => Some acc
  | c :: s' =>
      if is_digit c then digits_value (10 * acc + digit_value c) s' else None
  end.

(** What a string converts to when it is compared with a number. *)
Inductive number :=
| Int (n : N)
| NaN.

(** No StringNumericLiteral starts with a code unit other than a digit, a
    sign, a dot or the I of Infinity. *)
Definition starts_literal (c : ascii) : bool :=
  is_digit c ||
  match c with "+" | "-" | "." | "I" => true | _ => false end%char.

(** ToNumber on a string, for the forms the model covers: white space alone
    converts to 0, a run of decimal digits (white space around it allowed) to
    its value, and a string whose first code unit cannot start a numeric
    literal to NaN.  [None] stands for every other string (a sign, a
    fraction, an exponent, a radix prefix, Infinity, digits followed by other
    text): their conversion is left out of the model. *)
Definition StringToNumber (s : string) : option number :=
  match trim (chars s) with
  | [] => Some (Int 0)
  | c :: t =>
      match digits_value 0 (c :: t) with
      | Some n => Some (Int n)
      | None => if starts_literal c then None else Some NaN
      end
  end.

(** [length > maxLength] with a number on the left and a string on the
    right: the string is converted, and a comparison with NaN is false.  The
    length of a string is below 2^53, so comparing it with the exact value of
    the digits is comparing it with the double nearest to that value. *)
Definition gt_string (len : N) (maxLength : string) : option bool :=
  match StringToNumber maxLength with
  | Some (Int n) => Some (n <? len)
  | Some NaN => Some false
  | None => None
  end.

Record textarea := {
  id : string;
  data_max_length : string;   (* getAttribute('data-max-length') *)
  value : string
}.

(** The counter element. *)
Record counter := {
  classList : list string;
  textContent : string
}.

(** What [updateCounter] closes over: the attribute text read at set-up and
    the counter element, named here by the id it is found or created under.
    The document is the map from ids to the counters that [getElementById]
    can find, the only elements this behaviour looks up. *)
Record closure := {
  maxLength : string;
  counterId : string
}.

(** [updateCounter], on the counter it closes over; [v] is [textarea.value].
    [None] only where [gt_string] is: the comparison is outside the model. *)
Definition updateCounter (maxLength : string) (v : string) (c : counter)
    : option counter :=
  let len := N.of_nat (String.length v) in
  let text := of_length len +:+ "/" +:+ maxLength +:+ " characters" in
  over ← gt_string len maxLength;
  Some {| textContent := text;
          classList := if over : bool
                       then classList_add "text-danger" (classList c)
                       else classList_remove "text-danger" (classList c) |}.

(** The body of the [forEach]: reads the attribute, finds the counter or
    creates it, and makes the initial call. *)
Definition setup (t : textarea) (doc : gmap string counter)
    : option (closure * gmap string counter) :=
  let maxLength := data_max_length t in
  let counterId := "counter-" +:+ id t in
  let c :=
    match doc !! counterId with
    | Some c => c
    | None => {| classList := class_tokens "form-text text-end"; textContent := "" |}
    end in
  c' ← updateCounter maxLength (value t) c;
  Some ({| maxLength := maxLength; counterId := counterId |},
        <[counterId := c']> doc).

(** The [input] listener: [updateCounter] with the textarea's value at that
    time. *)
Definition on_input (k : closure) (v : string) (doc : gmap string counter)
    : option (gmap string counter) :=
  c ← doc !! counterId k;
  c' ← updateCounter (maxLength k) v c;
  Some (<[counterId k := c']> doc).

End Counter.

(** ** Image preview: the [change] listener of
    [input[type="file"][accept^="image"]] *)

Module Preview.

(** A selected file, as the data URL that reading it produces. *)
Record file := { data_url : string }.

(** What a preview container holds: thumbnails the listener appended, or
    whatever markup was there before. *)
Inductive child :=
| Img (src className maxWidth maxHeight : string)
| Markup (html : string).

(** The element [reader.onload] builds from the result of the read. *)
Definition thumbnail (f : file) : child :=
  Img (data_url f) "img-thumbnail m-1" "100px" "100px".

(** A read started by [readAsDataURL] whose [onload] has not run yet: the
    preview element the callback closes over, and the file. *)
Record read := { target : string; source : file }.

(** The elements that have an id, each with its children, and the reads in
    flight, oldest first. *)
Record state := {
  elements : gmap string (list child);
  pending : list read
}.

(** The file input: its [data-preview] attribute and its [files]. *)
Record input := {
  data_preview : option string;
  files : list file
}.

(** The [change] listener. *)
Definition on_change (i : input) (st : state) : state :=
  match data_preview i with
  | None => st
  | Some previewId =>
      if truthy previewId then
        match elements st !! previewId with
        | None => st
        | Some _ =>
            {| elements := <[previewId := []]> (elements st);
               pending := pending st ++ ((λ f, {| target := previewId; source := f |}) <$> files i) |}
        end
      else st
  end.

(** [reader.onload] of the [k]-th read in flight: the thumbnail is appended
    to the preview the callback closed over. *)
Definition on_load (k : nat) (st : state) : state :=
  match pending st !! k with
  | None => st
  | Some r =>
      {| elements := alter (λ kids, kids ++ [thumbnail (source r)]) (target r) (elements st);
         pending := delete k (pending st) |}
  end.

(** What the event loop delivers: a change event on a file input, or the
    completion of a read.  [reader.onload] is the only callback the listener
    registers, so a read that fails runs no code and is no step. *)
Inductive step :=
| Change (i : input)
| Loaded (k : nat).

Definition exec (st : state) (e : step) : state :=
  match e with
  | Change i => on_change i st
  | Loaded k => on_load k st
  end.

Definition run (st : state) (trace : list step) : state := foldl exec st trace.




End Preview.

(** ** The alert banner: [window.showAlert] *)

#[local] Set Warnings "-register-all".

Module Alerts.
Import Dom.

(** An element of the page: an identity, its tag name, its class attribute,
    the markup last assigned to [innerHTML] (kept as text), and the child
    elements inserted into it. *)
Inductive node :=
| Node (uid : nat) (tag className innerHTML : string) (children : list node).

Definition uid (n : node) : nat := match n with Node u _ _ _ _ => u end.
Definition tag (n : node) : string := match n with Node _ t _ _ _ => t end.
Definition className (n : node) : string := match n with Node _ _ c _ _ => c end.
Definition innerHTML (n : node) : string := match n with Node _ _ _ h _ => h end.
Definition children (n : node) : list node := match n with Node _ _ _ _ k => k end.

(** A place in the tree: the child indices from the root down. *)
Definition path : Type := list nat.

Fixpoint get (p : path) (n : node) : option node :=
  match p with
  | [] => Some n
  | i :: p' => children n !! i ≫= get p'
  end.

(** [container.insertBefore(x, container.firstChild)] for the container at
    [p]. *)
Fixpoint insert_first (p : path) (x : node) (n : node) : node :=
  match n with
  | Node u t c h kids =>
      match p with
      | [] => Node u t c h (x :: kids)
      | i :: p' => Node u t c h (alter (insert_first p' x) i kids)
      end
  end.

Definition has_container_class (n : node) : bool :=
  bool_decide ("container" ∈ class_tokens (className n)).

(** The children [l] of an element in document order, for a query [q] on
    elements: [i] is the index of the first of them and [seen] are the tags of
    the siblings already passed, which tell whether a child is the first of
    its type. *)
Section scan.
Variable q : bool → node → option path.

Fixpoint scan_children (seen : list string) (i : nat) (l : list node) : option path :=
  match l with
  | [] => None
  | k :: l' =>
      match q (bool_decide (tag k ∉ seen)) k with
      | Some p => Some (i :: p)
      | None => scan_children (tag k :: seen) (S i) l'
      end
  end.

End scan.

(** [querySelector('.container:first-of-type')] below and including [n]: the
    first element in document order that has the class and no earlier
    sibling of its own tag.  [first_of_type] says whether [n] itself is the
    first of its type among its siblings. *)
Fixpoint query_container (first_of_type : bool) (n : node) : option path :=
  match n with
  | Node _ _ _ _ kids =>
      if first_of_type && has_container_class n then Some []
      else scan_children query_container [] 0%nat kids
  end.

(** The selector stated on places, to compare the query with: the element
    at [p] below [n] has the class container and no earlier sibling has its
    tag.  [first_of_type] is as for the query. *)
Fixpoint matches_container (first_of_type : bool) (p : path) (n : node) : Prop :=
  match p with
  | [] => first_of_type = true ∧ has_container_class n = true
  | i :: p' =>
      ∃ k, children n !! i = Some k ∧
           matches_container
             (bool_decide (tag k ∉ tag <$> take i (children n))) p' k
  end.

(** Document order on places: an element comes before its descendants, and
    the subtree of a child before those of its later siblings. *)
Fixpoint before (p q : path) : Prop :=
  match p, q with
  | [], _ :: _ => True
  | i :: p', j :: q' => (i < j)%nat ∨ (i = j ∧ before p' q')
  | _, [] => False
  end.

(** Whether the element with identity [u] is a descendant of [n], that is,
    has a parent node in the tree rooted at [n]. *)
Fixpoint has_descendant (u : nat) (n : node) : bool :=
  match n with
  | Node _ _ _ _ kids =>
      existsb (λ k, bool_decide (uid k = u) || has_descendant u k) kids
  end.

(** A callback handed to [setTimeout]. *)
Inductive task :=
| CloseIfAttached (u : nat)   (* showAlert's: close the alert if it still has a parent *)
| Reload.                     (* the AJAX handler's: location.reload() *)

(** A call that leaves this file. *)
Inductive call :=
| AlertClose (u : nat)        (* new bootstrap.Alert(el).close() *)
| LocationReload.             (* location.reload() *)

(** The page: the tree below [document.body] (the root is the body), the
    next fresh element identity, the timers set, as delay in milliseconds and
    callback, and the outside calls made so far. *)
Record page := {
  body : node;
  fresh : nat;
  timers : list (N * task);
  calls : list call
}.

Definition setTimeout (t : task) (delay : N) (pg : page) : page :=
  {| body := body pg; fresh := fresh pg;
     timers := timers pg ++ [(delay, t)]; calls := calls pg |}.

(** The template literal assigned to [alertDiv.innerHTML]. *)
Definition alert_markup (message : string) : string :=
  nl +:+ "            " +:+ message +:+
  nl +:+ "            <button type=" +:+ dq +:+ "button" +:+ dq +:+
         " class=" +:+ dq +:+ "btn-close" +:+ dq +:+
         " data-bs-dismiss=" +:+ dq +:+ "alert" +:+ dq +:+ "></button>" +:+
  nl +:+ "        ".

(** The template literal assigned to [alertDiv.className]. *)
Definition alert_className (type : string) (permanent : bool) : string :=
  "alert alert-" +:+ type +:+ " alert-dismissible fade show " +:+
  (if permanent then "alert-permanent" else "").

(** [document.querySelector('.container:first-of-type') || document.body],
    as a place in the tree whose root is the body; the body has no sibling
    of its own tag. *)
Definition alert_container (b : node) : path :=
  default [] (query_container true b).

(** [window.showAlert(type, message, permanent)]. *)
Definition showAlert (type message : string) (permanent : bool) (pg : page) : page :=
  let alertDiv :=
    Node (fresh pg) "div" (alert_className type permanent) (alert_markup message) [] in
  let container := alert_container (body pg) in
  let pg' :=
    {| body := insert_first container alertDiv (body pg);
       fresh := S (fresh pg);
       timers := timers pg;
       calls := calls pg |} in
  if negb permanent then setTimeout (CloseIfAttached (fresh pg)) 5000 pg' else pg'.

(** Runs a timer's callback. *)
Definition run_task (t : task) (pg : page) : page :=
  match t with
  | CloseIfAttached u =>
      if has_descendant u (body pg)
      then {| body := body pg; fresh := fresh pg; timers := timers pg;
              calls := calls pg ++ [AlertClose u] |}
      else pg
  | Reload =>
      {| body := body pg; fresh := fresh pg; timers := timers pg;
         calls := calls pg ++ [LocationReload] |}
  end.

End Alerts.

(** ** AJAX form submission: the [submit] listener of [form[data-ajax]] *)

Module Ajax.
Import Dom Alerts.

(** The submit control: [form.querySelector('[type="submit"]')]. *)
Record button := {
  innerHTML : string;
  disabled : bool
}.

(** The form: the attributes and parts the listener reads, its class list,
    and how many times [reset()] has run on it. *)
Record form := {
  data_reset : bool;            (* hasAttribute('data-reset') *)
  data_reload : bool;           (* hasAttribute('data-reload') *)
  classList : list string;
  submit_control : option button;
  resets : nat
}.

(** The JSON body of the response, in the shape the endpoints answer with: a
    success flag, and optionally a message and a redirect URL.  Bodies of
    another shape are not modelled, except [null] (see [outcome]). *)
Record data := {
  success : bool;
  message : option string;
  redirect : option string
}.

(** How the request ends.  [error] is the text the console shows for the
    value the chain was rejected with. *)
Inductive outcome :=
| FetchRejected (error : string)   (* fetch() rejects: network-level failure *)
| BodyNotJson (error : string)     (* response.json() rejects *)
| BodyNull (error : string)        (* the body is the JSON null: data.success throws *)
| Body (d : data).

(** The page, the URL last assigned to [window.location.href] (as assigned),
    the form, and the lines written with [console.error].  The form and its
    submit control are kept apart from the tree of the page, into which only
    alerts are inserted. *)
Record state := {
  page : Alerts.page;
  location_href : string;
  the_form : form;
  console : list string
}.

Definition with_page (pg : Alerts.page) (st : state) : state :=
  {| page := pg; location_href := location_href st;
     the_form := the_form st; console := console st |}.

Definition with_form (f : form) (st : state) : state :=
  {| page := page st; location_href := location_href st;
     the_form := f; console := console st |}.

Definition with_button (b : button) (f : form) : form :=
  {| data_reset := data_reset f; data_reload := data_reload f;
     classList := classList f; submit_control := Some b; resets := resets f |}.

(** A field of the body where a string is expected: absent reads as
    undefined, which is falsy like the empty string. *)
Definition field (o : option string) : string := default "" o.

Definition spinner : string :=
  "<span class=" +:+ dq +:+ "spinner-border spinner-border-sm" +:+ dq +:+
  " role=" +:+ dq +:+ "status" +:+ dq +:+
  " aria-hidden=" +:+ dq +:+ "true" +:+ dq +:+ "></span> Processing...".

(** The listener up to the call of [fetch]: the label it saved and the state
    it leaves while the request is in flight.  [None]: the form has no
    submit control, reading [submitBtn.innerHTML] throws and no request is
    made.  The listener starts with [e.preventDefault()], which keeps the
    browser from submitting the form itself and changes nothing here. *)
Definition on_submit (st : state) : option (string * state) :=
  match submit_control (the_form st) with
  | None => None
  | Some submitBtn =>
      let originalText := innerHTML submitBtn in
      Some (originalText,
            with_form (with_button {| innerHTML := spinner; disabled := true |}
                                   (the_form st)) st)
  end.

(** [.then(data => ...)] *)
Definition on_data (d : data) (st : state) : state :=
  if success d then
    if truthy (field (redirect d)) then
      {| page := page st; location_href := field (redirect d);
         the_form := the_form st; console := console st |}
    else
      let st1 :=
        with_page (showAlert "success"
                     (or_else (field (message d)) "Operation successful")
                     false (page st)) st in
      let st2 :=
        if data_reset (the_form st1) then
          with_form {| data_reset := data_reset (the_form st1);
                       data_reload := data_reload (the_form st1);
                       classList := classList_remove "was-validated" (classList (the_form st1));
                       submit_control := submit_control (the_form st1);
                       resets := S (resets (the_form st1)) |} st1
        else st1 in
      if data_reload (the_form st2)
      then with_page (setTimeout Reload 1500 (page st2)) st2
      else st2
  else
    with_page (showAlert "danger"
                 (or_else (field (message d)) "An error occurred")
                 false (page st)) st.

(** [.catch(error => ...)] *)
Definition on_error (error : string) (st : state) : state :=
  let st1 :=
    with_page (showAlert "danger" "Network error. Please try again." false (page st)) st in
  {| page := page st1; location_href := location_href st1;
     the_form := the_form st1; console := console st1 ++ ["Error: " +:+ error] |}.

(** [.finally(() => ...)]: both assignments go to the control the listener
    saved in [submitBtn]. *)
Definition on_finally (originalText : string) (st : state) : state :=
  with_form (with_button {| innerHTML := originalText; disabled := false |}
                         (the_form st)) st.

(** The promise chain [fetch(...).then(json).then(...).catch(...).finally(...)]
    once the request has ended with [o]. *)
Definition settle (o : outcome) (originalText : string) (st : state) : state :=
  let st1 :=
    match o with
    | Body d => on_data d st
    | FetchRejected error | BodyNotJson error | BodyNull error => on_error error st
    end in
  on_finally originalText st1.

(** A submission from the submit event to the end of its request. *)
Definition submit (o : outcome) (st : state) : option state :=
  '(originalText, st1) ← on_submit st;
  Some (settle o originalText st1).

End Ajax.

(** ** Copy to clipboard: the [click] listener of [.copy-to-clipboard] *)

Module Clipboard.
Import Dom.

(** [this.previousElementSibling]: its [value] (undefined on elements that
    are not form controls) and its text. *)
Record sibling := {
  sibling_value : option string;
  sibling_textContent : string
}.

Record button := {
  data_clipboard_text : option string;   (* getAttribute('data-clipboard-text') *)
  previousElementSibling : option sibling;
  innerHTML : string;
  classList : list string
}.

(** A callback handed to [setTimeout]: it restores the label saved in
    [originalHTML]. *)
Inductive task :=
| Revert (originalHTML : string).

Record state := {
  the_button : button;
  clipboard : string;            (* the text on the system clipboard *)
  timers : list (N * task);
  console : list string
}.

(** How [navigator.clipboard.writeText] ends. *)
Inductive outcome :=
| Written
| Refused (err : string).

Definition with_label (h : string) (cl : list string) (b : button) : button :=
  {| data_clipboard_text := data_clipboard_text b;
     previousElementSibling := previousElementSibling b;
     innerHTML := h; classList := cl |}.

(** The text to copy.  [None]: the attribute is missing or empty and there is
    no previous sibling, so reading its [value] throws. *)
Definition text_to_copy (b : button) : option string :=
  let attr := default "" (data_clipboard_text b) in
  if truthy attr then Some attr
  else
    match previousElementSibling b with
    | None => None
    | Some p =>
        Some (or_else (default "" (sibling_value p)) (sibling_textContent p))
    end.

Definition copied_label : string :=
  "<i class=" +:+ dq +:+ "fas fa-check" +:+ dq +:+ "></i> Copied!".

(** The listener together with the [then] and [catch] callbacks, once
    [writeText] has ended with [o]. *)
Definition on_click (o : outcome) (st : state) : option state :=
  text ← text_to_copy (the_button st);
  Some
    match o with
    | Written =>
        let originalHTML := innerHTML (the_button st) in
        {| the_button :=
             with_label copied_label
               (classList_add "btn-success" (classList (the_button st)))
               (the_button st);
           clipboard := text;
           timers := timers st ++ [(2000, Revert originalHTML)];
           console := console st |}
    | Refused err =>
        {| the_button := the_button st;
           clipboard := clipboard st;
           timers := timers st;
           console := console st ++ ["Failed to copy:  " +:+ err] |}
    end.

(** Runs a timer's callback. *)
Definition run_task (t : task) (st : state) : state :=
  match t with
  | Revert originalHTML =>
      {| the_button :=
           with_label originalHTML
             (classList_remove "btn-success" (classList (the_button st)))
             (the_button st);
         clipboard := clipboard st;
         timers := timers st;
         console := console st |}
  end.

End Clipboard.

(** ** Tab persistence: the [click] listener of [a[data-bs-toggle="tab"]] and
    the restore at page load *)

Module Tabs.

(** An [a] element of the document: an identity and its [href] attribute. *)
Record anchor := {
  anchor_id : nat;
  href : option string
}.

(** [localStorage.setItem(key, v)] where [v] comes from [getAttribute]: a
    missing attribute is null, which is stored as the text null. *)
Definition setItem (key : string) (v : option string)
    (ls : gmap string string) : gmap string string :=
  <[key := default "null" v]> ls.

(** The click listener; [target_href] is [e.target.getAttribute('href')]. *)
Definition on_click (target_href : option string)
    (ls : gmap string string) : gmap string string :=
  setItem "activeTab" target_href ls.

(** Where a click that reaches the listener of a trigger has landed: on the
    trigger itself, or on an element inside it (an icon or a span of its
    label), whose [href] attribute is then the one that
    [e.target.getAttribute('href')] reads. *)
Inductive target :=
| OnTrigger
| Inside (inner_href : option string).


(** Code units that a double-quoted CSS string does not take literally: the
    quote, the backslash, the line breaks and the null. *)
Definition css_special (c : ascii) : bool :=
  match c with
  | "034" | "092" | "010" | "012" | "013" | "000" => true
  | _ => false
  end%char.

Definition css_plain (s : string) : bool :=
  forallb (λ c, negb (css_special c)) (chars s).

(** [document.querySelector(`a[href="${v}"]`)] over the anchors in document
    order, for a [v] that the selector carries literally: the first anchor
    whose [href] is [v]. *)
Definition query_href (v : string) (doc : list anchor) : option anchor :=
  list_find (λ a, href a = Some v) doc ≫= λ '(_, a), Some a.

(** What the page-load code does. *)
Inductive restored :=
| Nothing                       (* no tab is touched *)
| Shown (a : anchor).           (* new bootstrap.Tab(a).show() *)

(** The restore at page load.  [None]: the stored text holds a code unit
    that the quoted selector does not take literally, and what the selector
    then means is outside the model. *)
Definition restore (ls : gmap string string) (doc : list anchor) : option restored :=
  match ls !! "activeTab" with
  | None => Some Nothing
  | Some activeTab =>
      if truthy activeTab then
        if css_plain activeTab then
          match query_href activeTab doc with
          | Some tabElement => Some (Shown tabElement)
          | None => Some Nothing
          end
        else None
      else Some Nothing
  end.

End Tabs.

(** ** The page-load sweep: the timer that closes the alerts of the page *)

Module Sweep.
Import Dom Alerts.

(** The elements of a tree in document order, each as its identity and its
    class attribute. *)
Fixpoint elements (n : node) : list (nat * string) :=
  match n with
  | Node u _ c _ kids => (u, c) :: concat (elements <$> kids)
  end.

(** Whether an element with the class attribute [c] matches
    [.alert:not(.alert-permanent)]. *)
Definition dismissible (c : string) : bool :=
  bool_decide ("alert" ∈ class_tokens c) &&
  negb (bool_decide ("alert-permanent" ∈ class_tokens c)).

(** [querySelectorAll('.alert:not(.alert-permanent)')] on the tree of the
    body: the identities of the matching elements, in document order. *)
Definition swept (b : node) : list nat :=
  (filter (λ e, dismissible e.2 = true) (elements b)).*1.

(** The callback of the 5000 ms timer set at page load: every matching
    element is wrapped in a [bootstrap.Alert] and closed. *)
Definition sweep (pg : page) : page :=
  {| body := body pg; fresh := fresh pg; timers := timers pg;
     calls := calls pg ++ (AlertClose <$> swept (body pg)) |}.

End Sweep.

(** ** Password toggle: the [click] listener of [.password-toggle] *)

Module PasswordToggle.
Import Dom.

(** The element before the button, an [input]: its [type], which reads back
    as [text] or [password] once the listener has assigned it. *)
Record field := { type : string }.

(** What the listener reaches from the button: [this.previousElementSibling]
    (null when the button is the first element of its parent) and the class
    list of [this.querySelector('i')] (null when the button holds no [i]). *)
Record state := {
  previousElementSibling : option field;
  icon : option (list string)
}.

(** How the listener ends: it returns, or an exception leaves it with the
    state reached at the throw. *)
Inductive completion :=
| Returned (st : state)
| Thrown (st : state).

Definition final (c : completion) : state :=
  match c with Returned st | Thrown st => st end.

(** One branch of the listener: the assignment to [input.type], then
    [icon.classList.remove(off)] and [icon.classList.add(on)]. *)
Definition switch (to off on : string) (st : state) : completion :=
  let st1 := {| previousElementSibling := Some {| type := to |}; icon := icon st |} in
  match icon st with
  | None => Thrown st1
  | Some cl =>
      Returned {| previousElementSibling := Some {| type := to |};
                  icon := Some (classList_add on (classList_remove off cl)) |}
  end.

Definition on_click (st : state) : completion :=
  match previousElementSibling st with
  | None => Thrown st
  | Some input =>
      if decide (type input = "password")
      then switch "text" "fa-eye" "fa-eye-slash" st
      else switch "password" "fa-eye-slash" "fa-eye" st
  end.

(** [n] clicks in a row, as long as the listener returns. *)
Fixpoint clicks (n : nat) (st : state) : completion :=
  match n with
  | O => Returned st
  | S n' =>
      match on_click st with
      | Returned st' => clicks n' st'
      | Thrown st' => Thrown st'
      end
  end.

End PasswordToggle.

(** ** Smooth scrolling: the [click] listener of [a[href^="#"]] *)

Module Scroll.
Import Validation.

(** An element of the document that has an [id]: the id and [offsetTop], in
    pixels. *)
Record element := { id : string; offsetTop : Z }.

Definition is_letter (c : ascii) : bool :=
  let n := N_of_ascii c in
  ((65 <=? n) && (n <=? 90)) || ((97 <=? n) && (n <=? 122)).

Definition ident_start (c : ascii) : bool :=
  is_letter c || bool_decide (c = "_"%char).

Definition ident_char (c : ascii) : bool :=
  is_letter c || is_digit c || bool_decide (c = "_"%char) || bool_decide (c = "-"%char).

(** The selectors the model reads: [#] followed by an identifier written
    without escapes that starts with a letter or an underscore, which selects
    by id.  [None] stands for every other text, whose meaning as a selector
    (or failure to be one) is left out of the model. *)
Definition id_selector (s : string) : option string :=
  match s with
  | String "#" (String c rest) =>
      if ident_start c && forallb ident_char (chars rest)
      then Some (String c rest) else None
  | _ => None
  end.

(** [document.querySelector('#name')] on the elements in document order. *)
Definition query_id (name : string) (doc : list element) : option element :=
  list_find (λ x, id x = name) doc ≫= λ '(_, x), Some x.

(** What the listener does after [e.preventDefault()]. *)
Inductive effect :=
| NoScroll
| ScrollTo (top : Z).      (* window.scrollTo({top: top, behavior: 'smooth'}) *)

(** The listener; [href] is [this.getAttribute('href')].  The event is the
    one it leaves; the effect is [None] where the selector is outside the
    model. *)
Definition on_click (href : string) (doc : list element) (e : event)
    : event * option effect :=
  let e' := preventDefault e in
  let targetId := href in
  if decide (targetId = "#") then (e', Some NoScroll)
  else
    match id_selector targetId with
    | None => (e', None)
    | Some name =>
        match query_id name doc with
        | Some targetElement => (e', Some (ScrollTo (offsetTop targetElement - 80)))
        | None => (e', Some NoScroll)
        end
    end.

End Scroll.

(** ** [window.debounce] *)

Module Debounce.

(** A timer set by [setTimeout(later, wait)]: its handle, the time from
    which it may run, and the arguments [later] closes over. *)
Record timer (A : Type) := {
  handle : nat;
  due : N;
  args : A
}.
Arguments handle {A}.
Arguments due {A}.
Arguments args {A}.

(** The closure that [debounce(func, wait)] returns, with the timers it has
    set: the clock in milliseconds, the variable [timeout] (undefined until
    the first call), the timers that are active, the next handle that
    [setTimeout] gives out, and the calls of [func] made so far, each with
    the time of the call and its arguments. *)
Record state (A : Type) := {
  now : N;
  timeout : option nat;
  timers : list (timer A);
  next_handle : nat;
  invoked : list (N * A)
}.
Arguments now {A}.
Arguments timeout {A}.
Arguments timers {A}.
Arguments next_handle {A}.
Arguments invoked {A}.

(** [A] is the type of the argument lists; [wait] is the delay handed to
    [setTimeout], in milliseconds (a missing or negative one counts as 0).
    [func] is any function that neither throws nor calls the debounced
    function again. *)
Section closure.
Context {A : Type}.
Variable wait : N.

Definition init : state A :=
  {| now := 0; timeout := None; timers := []; next_handle := 1; invoked := [] |}.

(** [clearTimeout(h)]: an undefined handle, or one whose timer has run or
    was cleared, clears nothing. *)
Definition clearTimeout (h : option nat) (ts : list (timer A)) : list (timer A) :=
  match h with
  | None => ts
  | Some i => filter (λ t, handle t ≠ i) ts
  end.

(** [executedFunction(...args)] *)
Definition call (a : A) (st : state A) : state A :=
  let ts := clearTimeout (timeout st) (timers st) in
  {| now := now st;
     timeout := Some (next_handle st);
     timers := ts ++ [{| handle := next_handle st; due := now st + wait; args := a |}];
     next_handle := S (next_handle st);
     invoked := invoked st |}.

(** [later], for the call with arguments [a]: [func] is modelled by the
    record of its call. *)
Definition later (a : A) (st : state A) : state A :=
  {| now := now st;
     timeout := timeout st;
     timers := clearTimeout (timeout st) (timers st);
     next_handle := next_handle st;
     invoked := invoked st ++ [(now st, a)] |}.

(** The event loop runs the timer with handle [i]: it must be active and
    due; it stops being active and its callback runs. *)
Definition fire (i : nat) (st : state A) : option (state A) :=
  match list_find (λ t, handle t = i) (timers st) with
  | Some (_, t) =>
      if due t <=? now st then
        Some (later (args t)
                {| now := now st; timeout := timeout st;
                   timers := filter (λ t, handle t ≠ i) (timers st);
                   next_handle := next_handle st; invoked := invoked st |})
      else None
  | None => None
  end.

Definition elapse (d : N) (st : state A) : state A :=
  {| now := now st + d; timeout := timeout st; timers := timers st;
     next_handle := next_handle st; invoked := invoked st |}.

(** What happens to the closure: it is called, time passes, or the event
    loop runs one of its timers. *)
Inductive step :=
| Call (a : A)
| Elapse (d : N)
| Fire (i : nat).

Definition exec (st : state A) (e : step) : option (state A) :=
  match e with
  | Call a => Some (call a st)
  | Elapse d => Some (elapse d st)
  | Fire i => fire i st
  end.

(** A history; [None] if it asks for a timer that is not active or not
    due. *)
Fixpoint run (st : state A) (trace : list step) : option (state A) :=
  match trace with
  | [] => Some st
  | e :: trace' => exec st e ≫= λ st', run st' trace'
  end.

(** The arguments of the last call in a history, and the time that has
    passed since. *)
Fixpoint last_call (acc : option (A * N)) (trace : list step) : option (A * N) :=
  match trace with
  | [] => acc
  | Call a :: trace' => last_call (Some (a, 0)) trace'
  | Elapse d :: trace' =>
      last_call (match acc with Some (a, t) => Some (a, t + d) | None => None end) trace'
  | Fire _ :: trace' => last_call acc trace'
  end.

Definition is_call (e : step) : bool :=
  match e with Call _ => true | _ => false end.

(** The number of calls in a history. *)
Definition calls_in (trace : list step) : nat :=
  length (filter (λ e, is_call e = true) trace).

(** The invariant of the closure, for a history whose last call is [acc]:
    no timer is active, or one is, [timeout] is its handle, it carries the
    arguments of the last call and is due [wait] after that call. *)
Definition pending_is_last_call (acc : option (A * N)) (st : state A) : Prop :=
  timers st = [] ∨
  ∃ t a el, timers st = [t] ∧ timeout st = Some (handle t) ∧
            acc = Some (a, el) ∧ args t = a ∧ due t + el = now st + wait.

End closure.

End Debounce.

(** * Properties *)

(** ** Strings *)

Section string_facts.

Lemma str_chars s : str (chars s) = s.
Proof. apply String.string_of_list_ascii_of_string. Qed.

Lemma chars_str l : chars (str l) = l.
Proof. apply String.list_ascii_of_string_of_list_ascii. Qed.

Lemma length_chars s : length (chars s) = String.length s.
Proof. induction s as [|c s IH]; simpl; [done | by rewrite IH]. Qed.

Lemma chars_app s t : chars (s +:+ t) = chars s ++ chars t.
Proof. induction s as [|c s IH]; simpl; [done | by rewrite IH]. Qed.

Lemma str_app l k : str (l ++ k) = str l +:+ str k.
Proof. induction l as [|c l IH]; simpl; [done | by rewrite IH]. Qed.

Lemma append_assoc (s t u : string) : (s +:+ t) +:+ u = s +:+ t +:+ u.
Proof.
  rewrite <- (str_chars ((s +:+ t) +:+ u)), <- (str_chars (s +:+ t +:+ u)).
  by rewrite !chars_app, app_assoc.
Qed.

Lemma contains_infix (pre t post : string) : contains t (pre +:+ t +:+ post).
Proof. by exists pre, post. Qed.

End string_facts.

(** ** Phone number formatting *)

Section phone.
Import Regex Phone.

(** Replacing every non-digit by nothing leaves the digits. *)
Lemma replace_nondigits l :
  replace_cls_all NonDigit [] l = filter (λ c, is_digit c = true) l.
Proof.
  induction l as [|c l IH]; [done|].
  simpl. rewrite filter_cons.
  case_decide as E; [|apply not_true_is_false in E]; rewrite E; simpl;
    by rewrite IH.
Qed.

Lemma replace_all_digits v : replace_all NonDigit "" v = str (digits v).
Proof. unfold replace_all, digits. simpl. by rewrite replace_nondigits. Qed.

Lemma digits_all v : Forall (λ c, is_digit c = true) (digits v).
Proof. unfold digits. apply Forall_forall. intros c Hc. by apply list_elem_of_filter in Hc as [? _]. Qed.

(** On a run of digits the class [\d] matches to the end. *)
Lemma run_digits d : Forall (λ c, is_digit c = true) d → run Digit d = length d.
Proof.
  induction 1 as [|c d Hc _ IH]; [done|].
  simpl. by rewrite Hc, IH.
Qed.

(** A trailing [(\d+)] group takes all the digits that are left. *)
Lemma plus_takes_rest d :
  Forall (λ c, is_digit c = true) d → d ≠ [] →
  match_here [(Digit, Plus)] d = Some ([d], []).
Proof.
  intros Hd Hne. simpl. rewrite run_digits by done.
  destruct d as [|c d]; [done|]. simpl.
  by rewrite drop_all, take_ge.
Qed.

Lemma times_takes n r d :
  Forall (λ c, is_digit c = true) d → (n ≤ length d)%nat →
  match_here ((Digit, Times n) :: r) d =
    match match_here r (drop n d) with
    | Some (caps, rest) => Some (take n d :: caps, rest)
    | None => None
    end.
Proof.
  intros Hd Hn. simpl. rewrite run_digits by done.
  by rewrite (proj2 (Nat.leb_le _ _) Hn).
Qed.

Lemma exec_here r s caps rest :
  match_here r s = Some (caps, rest) → exec r s = Some ([], caps, rest).
Proof. intros H. destruct s; simpl; by rewrite H. Qed.

(** The four-group pattern on eleven digits or more. *)
Lemma match_four_groups d :
  Forall (λ c, is_digit c = true) d → (10 < length d)%nat →
  match_here re4 d =
    Some ([take 3 d; take 3 (drop 3 d); take 4 (drop 6 d); drop 10 d], []).
Proof.
  intros Hd Hlen. unfold re4.
  rewrite times_takes; [| done | lia].
  rewrite times_takes; [| by apply Forall_drop | rewrite length_drop; lia].
  rewrite drop_drop.
  rewrite times_takes; [| by apply Forall_drop | rewrite length_drop; lia].
  rewrite drop_drop.
  rewrite plus_takes_rest; [done | by apply Forall_drop |].
  intros E. apply (f_equal length) in E. rewrite length_drop in E. simpl in E. lia.
Qed.

(** The three-group pattern on seven digits or more, and the two-group
    pattern on four or more. *)
Lemma match_three_groups d :
  Forall (λ c, is_digit c = true) d → (6 < length d)%nat →
  match_here re3 d = Some ([take 3 d; take 3 (drop 3 d); drop 6 d], []).
Proof.
  intros Hd Hlen. unfold re3.
  rewrite times_takes; [| done | lia].
  rewrite times_takes; [| by apply Forall_drop | rewrite length_drop; lia].
  rewrite drop_drop.
  rewrite plus_takes_rest; [done | by apply Forall_drop |].
  intros E. apply (f_equal length) in E. rewrite length_drop in E. simpl in E. lia.
Qed.

Lemma match_two_groups d :
  Forall (λ c, is_digit c = true) d → (3 < length d)%nat →
  match_here re2 d = Some ([take 3 d; drop 3 d], []).
Proof.
  intros Hd Hlen. unfold re2.
  rewrite times_takes; [| done | lia].
  rewrite plus_takes_rest; [done | by apply Forall_drop |].
  intros E. apply (f_equal length) in E. rewrite length_drop in E. simpl in E. lia.
Qed.

(** [format] only looks at the digits of the value. *)
Lemma format_digits v :
  format v =
    let value := str (digits v) in
    let n := length (digits v) in
    if ((3 <? n) && (n <=? 6))%nat then replace re2 tmpl2 value
    else if ((6 <? n) && (n <=? 10))%nat then replace re3 tmpl3 value
    else if (10 <? n)%nat then replace re4 tmpl4 value
    else value.
Proof.
  unfold format. rewrite replace_all_digits.
  by rewrite <- (length_chars (str _)), chars_str.
Qed.

(** What the listener leaves for every number of digits: up to three digits
    as they are, then groups of three, three and four, and the rest. *)
Lemma format_by_length v :
  let d := digits v in
  let n := length d in
  format v =
    if (n <=? 3)%nat then str d
    else if (n <=? 6)%nat then str (take 3 d ++ chars "-" ++ drop 3 d)
    else if (n <=? 10)%nat then
      str (take 3 d ++ chars "-" ++ take 3 (drop 3 d) ++ chars "-" ++ drop 6 d)
    else
      str (take 3 d ++ chars "-" ++ take 3 (drop 3 d) ++ chars "-" ++
           take 4 (drop 6 d) ++ chars "-" ++ drop 10 d).
Proof.
  intros d n. rewrite format_digits. fold d. fold n. simpl.
  pose proof (digits_all v) as Hd. fold d in Hd.
  unfold replace. rewrite chars_str.
  destruct (n <=? 3)%nat eqn:E3.
  { apply Nat.leb_le in E3.
    rewrite (proj2 (Nat.ltb_ge _ _)) by lia. simpl.
    rewrite (proj2 (Nat.ltb_ge _ _)) by lia. simpl.
    by rewrite (proj2 (Nat.ltb_ge _ _)) by lia. }
  apply Nat.leb_gt in E3. rewrite (proj2 (Nat.ltb_lt _ _) E3). simpl.
  destruct (n <=? 6)%nat eqn:E6.
  { apply Nat.leb_le in E6.
    rewrite (exec_here _ _ _ _ (match_two_groups d Hd E3)).
    unfold substitute. simpl. by rewrite !app_nil_r. }
  apply Nat.leb_gt in E6. rewrite (proj2 (Nat.ltb_lt _ _) E6). simpl.
  destruct (n <=? 10)%nat eqn:E10.
  { apply Nat.leb_le in E10.
    rewrite (exec_here _ _ _ _ (match_three_groups d Hd E6)).
    unfold substitute. simpl. by rewrite !app_nil_r. }
  apply Nat.leb_gt in E10. rewrite (proj2 (Nat.ltb_lt _ _) E10).
  rewrite (exec_here _ _ _ _ (match_four_groups d Hd E10)).
  unfold substitute. simpl. by rewrite !app_nil_r.
Qed.

(** C2. After an input event on a phone field, a value whose digits are
    1234567890 has become 123-456-7890; and a value with more than ten digits
    has become the first three, the next three and the next four digits and,
    as a fourth group, all the digits beyond the tenth, joined by hyphens. *)
Theorem phone_format_groups (i : Phone.input) :
  let d := digits (Phone.value i) in
  let v' := Phone.value (on_input i) in
  (d = chars "1234567890" → v' = "123-456-7890") ∧
  ((10 < length d)%nat →
     v' = str (take 3 d) +:+ "-" +:+ str (take 3 (drop 3 d)) +:+ "-" +:+
          str (take 4 (drop 6 d)) +:+ "-" +:+ str (drop 10 d)).
Proof.
  intros d v'. subst v'. unfold on_input. simpl. rewrite format_digits.
  fold d. split.
  - intros ->. reflexivity.
  - intros Hlen. simpl.
    rewrite (proj2 (Nat.ltb_lt _ _) Hlen).
    replace ((3 <? length d) && (length d <=? 6))%nat with false
      by (symmetry; apply andb_false_iff; right; apply Nat.leb_gt; lia).
    replace ((6 <? length d) && (length d <=? 10))%nat with false
      by (symmetry; apply andb_false_iff; right; apply Nat.leb_gt; lia).
    unfold replace. rewrite chars_str.
    rewrite (exec_here _ _ _ _ (match_four_groups d (digits_all _) Hlen)).
    unfold substitute. simpl. rewrite !app_nil_r.
    symmetry. rewrite <- (str_chars (_ +:+ _)). f_equal.
    by rewrite !chars_app, !chars_str.
Qed.

(** The value while it is being typed: up to three digits are left alone,
    then the groups appear one after the other. *)
Example phone_format_while_typing :
  format "123" = "123" ∧ format "1234" = "123-4" ∧ format "123456" = "123-456" ∧
  format "1234567" = "123-456-7" ∧ format "123-456-78" = "123-456-78" ∧
  format "+1 (234) 567-8901 ext. 23" = "123-456-7890-123".
Proof. repeat split. Qed.

(** The two values the specification names, typed with punctuation and
    without. *)
Lemma phone_format_groups_witness :
  Phone.value (on_input {| Phone.value := "(123) 456-7890" |}) = "123-456-7890" ∧
  Phone.value (on_input {| Phone.value := "12345678901" |}) = "123-456-7890-1".
Proof.
  split.
  - apply (proj1 (phone_format_groups {| Phone.value := "(123) 456-7890" |})).
    reflexivity.
  - apply (proj2 (phone_format_groups {| Phone.value := "12345678901" |})).
    simpl. lia.
Defined.

End phone.

(** ** Character counter *)

Section counter.
Import Dom Counter.

Lemma pretty_N_char_digit x : is_digit (pretty_N_char x) = true.
Proof. unfold pretty_N_char. by repeat case_match. Qed.

Lemma pretty_N_char_value x : x < 10 → digit_value (pretty_N_char x) = x.
Proof.
  intros Hx.
  assert (x = 0 ∨ x = 1 ∨ x = 2 ∨ x = 3 ∨ x = 4 ∨ x = 5 ∨ x = 6 ∨ x = 7 ∨
          x = 8 ∨ x = 9) as H by lia.
  repeat (destruct H as [->|H]; [reflexivity|]). by subst.
Qed.

(** Reading back the digits that [pretty_N_go] writes in front of [s]. *)
Lemma digits_value_go x s :
  digits_value 0 (chars (pretty_N_go x s)) = digits_value x (chars s).
Proof.
  revert s. induction (N.lt_wf_0 x) as [x _ IH]. intros s.
  destruct (decide (x = 0)) as [->|Hx].
  - by rewrite pretty_N_go_0.
  - rewrite pretty_N_go_step by lia.
    rewrite IH by (apply N.div_lt; lia).
    simpl. rewrite pretty_N_char_digit.
    rewrite pretty_N_char_value by (apply N.mod_lt; lia).
    f_equal. rewrite (N.div_mod x 10) at 3 by lia. lia.
Qed.

Lemma digits_value_of_length n : digits_value 0 (chars (of_length n)) = Some n.
Proof.
  unfold of_length, pretty, pretty_N. case_decide as Hn.
  - by subst.
  - by rewrite digits_value_go.
Qed.

Lemma digits_value_digits s acc n :
  digits_value acc s = Some n → Forall (λ c, is_digit c = true) s.
Proof.
  revert acc. induction s as [|c s IH]; intros acc H; [constructor|].
  simpl in H. destruct (is_digit c) eqn:E; [|done].
  constructor; [done | by eapply IH].
Qed.

Lemma digit_not_ws c : is_digit c = true → is_str_ws c = false.
Proof.
  destruct c as [[] [] [] [] [] [] [] []]; simpl; intros H; done.
Qed.

Lemma trim_start_digit c s : is_digit c = true → trim_start (c :: s) = c :: s.
Proof. intros H. simpl. by rewrite (digit_not_ws _ H). Qed.

(** A non-empty run of digits has no white space to strip. *)
Lemma trim_digits s :
  Forall (λ c, is_digit c = true) s → trim s = s.
Proof.
  intros Hs. unfold trim. destruct s as [|c s]; [done|].
  rewrite trim_start_digit by by inversion Hs.
  assert (Hrev : Forall (λ c, is_digit c = true) (rev (c :: s))).
  { by apply List.Forall_rev. }
  destruct (rev (c :: s)) as [|c' s'] eqn:E.
  - apply (f_equal (@length _)) in E. rewrite length_rev in E. done.
  - rewrite trim_start_digit by by inversion Hrev.
    by rewrite <- E, rev_involutive.
Qed.

(** The attribute text that spells [n] in decimal converts to [n]. *)
Lemma StringToNumber_of_length n : StringToNumber (of_length n) = Some (Int n).
Proof.
  pose proof (digits_value_of_length n) as Hv.
  unfold StringToNumber.
  rewrite trim_digits by by eapply digits_value_digits.
  destruct (chars (of_length n)) as [|c t] eqn:E.
  - simpl in Hv. by inversion Hv.
  - by rewrite Hv.
Qed.

Lemma gt_string_of_length len n : gt_string len (of_length n) = Some (n <? len).
Proof. unfold gt_string. by rewrite StringToNumber_of_length. Qed.

Lemma classList_add_elem (t : string) (l : list string) : t ∈ classList_add t l.
Proof.
  unfold classList_add. destruct (decide (t ∈ l)); [done|].
  apply elem_of_app. right. by left.
Qed.

Lemma classList_remove_elem (t : string) (l : list string) : t ∉ classList_remove t l.
Proof. unfold classList_remove. rewrite list_elem_of_filter. by intros [? _]. Qed.

(** The conversion on the forms an attribute may come in. *)
Example StringToNumber_forms :
  StringToNumber "500" = Some (Int 500) ∧ StringToNumber " 0500 " = Some (Int 500) ∧
  StringToNumber "" = Some (Int 0) ∧ StringToNumber "none" = Some NaN ∧
  StringToNumber "5e2" = None ∧ StringToNumber "-1" = None.
Proof. repeat split. Qed.

(** With an attribute that is no number the comparison is always false, and
    the counter is never flagged. *)
Lemma updateCounter_nan maxLength v c :
  StringToNumber maxLength = Some NaN →
  ∃ c', updateCounter maxLength v c = Some c' ∧ "text-danger" ∉ classList c'.
Proof.
  intros H. unfold updateCounter, gt_string. rewrite H. simpl.
  eexists. split; [done|]. apply classList_remove_elem.
Qed.

(** C1. For a textarea whose data-max-length attribute spells the number
    [n], the set-up finds or creates a counter element, and whenever an input
    event then finds the textarea with a value of length [L], the listener
    leaves that counter reading "L/n characters" and carrying the class
    text-danger exactly when [L > n]. *)
Theorem counter_reads_length_and_flags_excess
    (t : textarea) (n : N) (doc0 : gmap string counter) :
  data_max_length t = of_length n →
  ∃ k doc1,
    setup t doc0 = Some (k, doc1) ∧
    is_Some (doc1 !! counterId k) ∧
    ∀ (v : string) (doc : gmap string counter),
      is_Some (doc !! counterId k) →
      let L := N.of_nat (String.length v) in
      ∃ doc' c,
        on_input k v doc = Some doc' ∧
        doc' !! counterId k = Some c ∧
        textContent c = of_length L +:+ "/" +:+ of_length n +:+ " characters" ∧
        ("text-danger" ∈ classList c ↔ n < L).
Proof.
  intros Hattr. unfold setup, updateCounter.
  rewrite Hattr, gt_string_of_length. simpl.
  eexists _, _. split; [reflexivity|]. split.
  { simpl. rewrite lookup_insert_eq. by eexists. }
  intros v doc [c0 Hc0]. set (L := N.of_nat (String.length v)).
  unfold on_input, updateCounter. simpl in *. rewrite Hc0. simpl.
  rewrite gt_string_of_length. simpl.
  eexists _, _. split; [reflexivity|].
  split; [apply lookup_insert_eq|]. simpl.
  split; [done|]. fold L.
  destruct (n <? L) eqn:E.
  - apply N.ltb_lt in E. split; [done|]. intros _. apply classList_add_elem.
  - apply N.ltb_ge in E. split; [|lia].
    intros H. by apply classList_remove_elem in H.
Qed.

(** A textarea limited to 5 code units, set up on a page without a counter
    for it, on which 6 code units are then typed. *)
Lemma counter_reads_length_and_flags_excess_witness :
  let t := {| id := "bio"; data_max_length := "5"; value := "" |} in
  ∃ k doc1 doc' c,
    setup t ∅ = Some (k, doc1) ∧
    on_input k "abcdef" doc1 = Some doc' ∧
    doc' !! counterId k = Some c ∧
    textContent c = "6/5 characters" ∧
    ("text-danger" ∈ classList c ↔ 5 < 6).
Proof.
  intros t.
  destruct (counter_reads_length_and_flags_excess t 5 ∅ eq_refl)
    as (k & doc1 & Hsetup & Hcounter & Hinput).
  destruct (Hinput "abcdef" doc1 Hcounter) as (doc' & c & H).
  exists k, doc1, doc', c. split; [exact Hsetup | exact H].
Defined.

End counter.

(** ** Form validation *)

Section validation.
Import Dom Validation.

(** C6. On a submit event, a form that fails constraint validation has the
    event's default prevented and its propagation stopped and gains the class
    was-validated; for a form that passes, the listener leaves the event as it
    found it, so it does not prevent the default submission. *)
Theorem invalid_form_is_cancelled_valid_form_proceeds (f : form) (e : event) :
  let '(f', e') := on_submit f e in
  if checkValidity f then e' = e
  else defaultPrevented e' = true ∧ propagationStopped e' = true ∧
       "was-validated" ∈ classList f'.
Proof.
  unfold on_submit. destruct (checkValidity f); simpl; [done|].
  repeat split. apply classList_add_elem.
Qed.

End validation.

(** ** The alert banner *)

Section alerts.
Import Dom Alerts.

(** Induction on an element with the hypothesis for all its children. *)
Lemma node_nested_ind (P : node → Prop) :
  (∀ u t c h kids, Forall P kids → P (Node u t c h kids)) → ∀ n, P n.
Proof.
  intros H. fix IH 1. intros [u t c h kids]. apply H.
  induction kids as [|k kids IHk]; constructor; [apply IH | exact IHk].
Qed.

(** The scan answers with the index of one of the children and what the
    query found below it. *)
Lemma scan_children_Some q seen i l p :
  scan_children q seen i l = Some p →
  ∃ j k fot p', p = (i + j)%nat :: p' ∧ l !! j = Some k ∧ q fot k = Some p'.
Proof.
  revert seen i. induction l as [|k l IH]; intros seen i H; [done|].
  simpl in H. destruct (q _ k) as [p'|] eqn:E.
  - injection H as <-. exists 0%nat, k, (bool_decide (tag k ∉ seen)), p'.
    by rewrite Nat.add_0_r.
  - destruct (IH _ _ H) as (j & k' & fot & p' & -> & Hk & Hq).
    exists (S j), k', fot, p'. split; [f_equal; lia | done].
Qed.

(** What the query finds is an element of the tree, and it has the class. *)
Lemma query_container_get n :
  ∀ fot p, query_container fot n = Some p →
  ∃ c, get p n = Some c ∧ has_container_class c = true.
Proof.
  induction n as [u t c h kids IH] using node_nested_ind. intros fot p H.
  simpl in H.
  destruct (fot && has_container_class (Node u t c h kids)) eqn:E.
  - injection H as <-. apply andb_true_iff in E as [_ E]. by eexists.
  - apply scan_children_Some in H as (j & k & fot' & p' & -> & Hk & Hq).
    rewrite Forall_lookup in IH.
    destruct (IH _ _ Hk _ _ Hq) as (c' & Hget & Hc').
    exists c'. split; [|done]. simpl. by rewrite Hk.
Qed.

(** The scan of the children from index [length pre] on, given that the
    query is right on every child: it stops at the first child below which a
    place matches, with the first such place. *)
Lemma scan_children_first fot u t c h kids :
  Forall (λ k, ∀ fot,
            match query_container fot k with
            | Some p => matches_container fot p k ∧
                        ∀ q, matches_container fot q k → q = p ∨ before p q
            | None => ∀ q, ¬ matches_container fot q k
            end) kids →
  ∀ l pre seen,
    kids = pre ++ l →
    (∀ t, t ∈ seen ↔ t ∈ tag <$> pre) →
    match scan_children query_container seen (length pre) l with
    | Some p =>
        matches_container fot p (Node u t c h kids) ∧
        ∀ i q, (length pre ≤ i)%nat →
               matches_container fot (i :: q) (Node u t c h kids) →
               i :: q = p ∨ before p (i :: q)
    | None =>
        ∀ i q, (length pre ≤ i)%nat →
               ¬ matches_container fot (i :: q) (Node u t c h kids)
    end.
Proof.
  intros IH l. induction l as [|k l IHl]; intros pre seen Hkids Hseen.
  - simpl. intros i q Hi (k & Hk & _).
    apply lookup_lt_Some in Hk. subst kids. rewrite app_nil_r in Hk. lia.
  - assert (Hk : kids !! length pre = Some k).
    { subst kids. by rewrite list_lookup_middle. }
    assert (Htake : take (length pre) kids = pre).
    { subst kids. by rewrite take_app_length. }
    assert (Hfot : bool_decide (tag k ∉ seen) =
                   bool_decide (tag k ∉ tag <$> take (length pre) kids)).
    { apply bool_decide_ext. by rewrite Htake, Hseen. }
    rewrite Forall_forall in IH.
    assert (Hin : k ∈ kids).
    { subst kids. apply elem_of_app. right. by left. }
    specialize (IH k Hin (bool_decide (tag k ∉ seen))).
    assert (Hhere : ∀ q, matches_container fot (length pre :: q) (Node u t c h kids) →
                         matches_container (bool_decide (tag k ∉ seen)) q k).
    { intros q (k' & Hk' & Hq). simpl in Hk', Hq.
      rewrite Hk in Hk'. injection Hk' as <-. by rewrite Hfot. }
    assert (Hseen' : ∀ t', t' ∈ tag k :: seen ↔ t' ∈ tag <$> (pre ++ [k])).
    { intros t'. rewrite fmap_app, elem_of_app, elem_of_cons, Hseen.
      simpl. rewrite list_elem_of_singleton. tauto. }
    assert (Hkids' : kids = (pre ++ [k]) ++ l).
    { subst kids. by rewrite <- app_assoc. }
    simpl. destruct (query_container (bool_decide (tag k ∉ seen)) k) as [p|] eqn:E.
    + destruct IH as [Hm Hfirst]. split.
      * simpl. exists k. split; [done|]. by rewrite <- Hfot.
      * intros i q Hi Hq.
        destruct (decide (i = length pre)) as [->|Hne].
        -- destruct (Hfirst q (Hhere q Hq)) as [->|Hb]; [by left|].
           right. simpl. by right.
        -- right. simpl. left. lia.
    + specialize (IHl (pre ++ [k]) (tag k :: seen) Hkids' Hseen').
      rewrite length_app in IHl. simpl in IHl.
      replace (length pre + 1)%nat with (S (length pre)) in IHl by lia.
      assert (Hstep : ∀ i q, (length pre ≤ i)%nat →
                matches_container fot (i :: q) (Node u t c h kids) →
                (S (length pre) ≤ i)%nat).
      { intros i q Hi Hq.
        destruct (decide (i = length pre)) as [->|Hne]; [|lia].
        by destruct (IH q (Hhere q Hq)). }
      destruct (scan_children query_container (tag k :: seen) (S (length pre)) l)
        as [p|] eqn:Escan.
      * destruct IHl as [Hm Hfirst].
        split; [done|]. intros i q Hi Hq. apply Hfirst; [|done]. by eapply Hstep.
      * intros i q Hi Hq. eapply IHl; [by eapply Hstep | done].
Qed.

(** The query finds the first place, in document order, whose element
    matches the selector, and finds nothing only if none matches. *)
Lemma query_container_first n :
  ∀ fot,
    match query_container fot n with
    | Some p => matches_container fot p n ∧
                ∀ q, matches_container fot q n → q = p ∨ before p q
    | None => ∀ q, ¬ matches_container fot q n
    end.
Proof.
  induction n as [u t c h kids IH] using node_nested_ind. intros fot.
  simpl query_container.
  destruct (fot && has_container_class (Node u t c h kids)) eqn:E.
  - apply andb_true_iff in E as [-> E]. split; [done|].
    intros [|i q] _; [by left | by right].
  - pose proof (scan_children_first fot u t c h kids IH kids [] [] eq_refl) as Hscan.
    simpl in Hscan.
    assert (Hroot : ¬ matches_container fot [] (Node u t c h kids)).
    { intros [-> Hc]. simpl in E. by rewrite Hc in E. }
    assert (Hnil : ∀ t' : string, t' ∈ @nil string ↔ t' ∈ @nil string) by done.
    specialize (Hscan Hnil).
    destruct (scan_children query_container [] 0 kids) as [p|].
    + destruct Hscan as [Hm Hfirst]. split; [exact Hm|].
      intros [|i q] Hq; [done|]. apply Hfirst; [lia | exact Hq].
    + intros [|i q] Hq; [done|]. eapply Hscan; [|exact Hq]. lia.
Qed.

(** The place where the alert goes is an element of the page. *)
Lemma alert_container_get b : ∃ c, get (alert_container b) b = Some c.
Proof.
  unfold alert_container. destruct (query_container true b) as [p|] eqn:E.
  - destruct (query_container_get _ _ _ E) as (c & Hc & _). by exists c.
  - by exists b.
Qed.

(** The place is the first, in document order, whose element matches the
    selector, or the body when no element matches. *)
Lemma alert_container_first b :
  (matches_container true (alert_container b) b ∧
   ∀ q, matches_container true q b → q = alert_container b ∨ before (alert_container b) q)
  ∨ ((∀ q, ¬ matches_container true q b) ∧ alert_container b = []).
Proof.
  unfold alert_container. pose proof (query_container_first b true) as H.
  destruct (query_container true b) as [p|]; [by left | by right].
Qed.

Lemma get_insert_first p x n c :
  get p n = Some c →
  get p (insert_first p x n) =
    Some (Node (uid c) (tag c) (className c) (innerHTML c) (x :: children c)).
Proof.
  revert n. induction p as [|i p IH]; intros [u t cl h kids] H.
  - simpl in H. by injection H as <-.
  - simpl in *. rewrite list_lookup_alter_eq.
    destruct (kids !! i) as [k|]; [|done]. simpl in *. by apply IH.
Qed.

Lemma has_descendant_insert_first p x n c :
  get p n = Some c → has_descendant (uid x) (insert_first p x n) = true.
Proof.
  revert n. induction p as [|i p IH]; intros [u t cl h kids] H.
  - simpl. by rewrite bool_decide_eq_true_2.
  - simpl in *. destruct (kids !! i) as [k|] eqn:Hk; [|done]. simpl in H.
    apply existsb_exists. exists (insert_first p x k). split.
    + apply list_elem_of_In, list_elem_of_lookup. exists i.
      by rewrite list_lookup_alter_eq, Hk.
    + rewrite (IH _ H). apply orb_true_r.
Qed.

(** A word followed by white space is read as one token, together with the
    code units already read into [cur]. *)
Lemma split_ws_word t cur sp post :
  Forall (λ c, is_ascii_ws c = false) t → is_ascii_ws sp = true →
  split_ws cur (t ++ sp :: post) =
    match rev cur ++ t with
    | [] => split_ws [] post
    | w => str w :: split_ws [] post
    end.
Proof.
  intros Ht Hsp. revert cur.
  induction Ht as [|c t Hc _ IH]; intros cur.
  - simpl. rewrite Hsp, app_nil_r. destruct cur as [|c cur]; [done|].
    simpl. by destruct (rev cur ++ [c]) eqn:E; [destruct (rev cur)|].
  - simpl. rewrite Hc, IH. simpl. by rewrite <- app_assoc.
Qed.

(** A word between two white-space code units is one of the tokens. *)
Lemma split_ws_between pre sp t sp' post cur :
  Forall (λ c, is_ascii_ws c = false) t → t ≠ [] →
  is_ascii_ws sp = true → is_ascii_ws sp' = true →
  str t ∈ split_ws cur (pre ++ sp :: t ++ sp' :: post).
Proof.
  intros Ht Hne Hsp Hsp'. revert cur.
  assert (Hword : str t ∈ split_ws [] (t ++ sp' :: post)).
  { rewrite split_ws_word by done. simpl. destruct t; [done | by left]. }
  induction pre as [|c pre IH]; intros cur; simpl.
  - rewrite Hsp. destruct cur; [done | by right].
  - destruct (is_ascii_ws c); [|apply IH].
    destruct cur; [apply IH | right; apply IH].
Qed.

(** So is a word after white space at the end. *)
Lemma split_ws_end t cur :
  Forall (λ c, is_ascii_ws c = false) t →
  split_ws cur t = match rev cur ++ t with [] => [] | w => [str w] end.
Proof.
  intros Ht. revert cur. induction Ht as [|c t Hc _ IH]; intros cur.
  - simpl. rewrite app_nil_r. destruct cur as [|c cur]; [done|].
    simpl. by destruct (rev cur ++ [c]) eqn:E; [destruct (rev cur)|].
  - simpl. rewrite Hc, IH. simpl. by rewrite <- app_assoc.
Qed.

Lemma split_ws_last pre sp t cur :
  Forall (λ c, is_ascii_ws c = false) t → t ≠ [] →
  is_ascii_ws sp = true →
  str t ∈ split_ws cur (pre ++ sp :: t).
Proof.
  intros Ht Hne Hsp. revert cur.
  assert (Hword : str t ∈ split_ws [] t).
  { rewrite split_ws_end by done. simpl. destruct t; [done | by left]. }
  induction pre as [|c pre IH]; intros cur; simpl.
  - rewrite Hsp. destruct cur; [done | by right].
  - destruct (is_ascii_ws c); [|apply IH].
    destruct cur; [apply IH | right; apply IH].
Qed.

(** A permanent alert carries the class that the page's own sweep of
    alerts excludes. *)
Lemma alert_className_permanent type :
  has_class "alert-permanent" (alert_className type true).
Proof.
  unfold has_class, class_tokens, alert_className.
  rewrite !chars_app.
  replace (chars "alert alert-" ++ chars type ++
           chars " alert-dismissible fade show " ++ chars "alert-permanent")
    with ((chars "alert alert-" ++ chars type ++
           chars " alert-dismissible fade show") ++
          " "%char :: chars "alert-permanent")
    by (by rewrite <- !app_assoc).
  apply (split_ws_last _ " "%char (chars "alert-permanent")); [|done..].
  by repeat constructor.
Qed.

Lemma alert_className_dismissible type permanent :
  has_class "alert-dismissible" (alert_className type permanent).
Proof.
  unfold has_class, class_tokens, alert_className.
  rewrite !chars_app.
  change "alert-dismissible" with (str (chars "alert-dismissible")).
  set (rest := chars (if permanent then "alert-permanent" else "")).
  replace (chars "alert alert-" ++ chars type ++
           chars " alert-dismissible fade show " ++ rest)
    with ((chars "alert alert-" ++ chars type) ++
          " "%char :: chars "alert-dismissible" ++
          " "%char :: (chars "fade show " ++ rest))
    by (by rewrite <- app_assoc).
  apply split_ws_between; [|done..].
  by repeat constructor.
Qed.

(** The severity class is one of the alert's classes, if the type has no
    white space in it. *)
Lemma alert_className_severity type permanent :
  forallb (λ c, negb (is_ascii_ws c)) (chars type) = true →
  has_class ("alert-" +:+ type) (alert_className type permanent).
Proof.
  intros Htype. unfold has_class, class_tokens, alert_className.
  rewrite <- (str_chars ("alert-" +:+ type)).
  rewrite !chars_app.
  set (rest := chars (if permanent then "alert-permanent" else "")).
  replace (chars "alert alert-" ++ chars type ++
           chars " alert-dismissible fade show " ++ rest)
    with (chars "alert" ++
          " "%char :: (chars "alert-" ++ chars type) ++
          " "%char :: (chars "alert-dismissible fade show " ++ rest))
    by reflexivity.
  apply split_ws_between; [| |done..].
  - apply Forall_app. split; [by repeat constructor|].
    apply Forall_forall. intros c Hc.
    rewrite forallb_forall in Htype.
    apply list_elem_of_In, Htype in Hc. by destruct (is_ascii_ws c).
  - done.
Qed.

(** The message is part of the alert's markup. *)
Lemma alert_markup_contains message : contains message (alert_markup message).
Proof.
  unfold alert_markup. eexists (nl +:+ "            "), _.
  rewrite append_assoc. reflexivity.
Qed.

(** The first token of the alert's class attribute. *)
Lemma alert_className_alert type permanent :
  has_class "alert" (alert_className type permanent).
Proof.
  unfold has_class, class_tokens, alert_className.
  rewrite !chars_app.
  replace (chars "alert alert-" ++ chars type ++
           chars " alert-dismissible fade show " ++
           chars (if permanent then "alert-permanent" else ""))
    with (chars "alert" ++
          " "%char :: (chars "alert-" ++ chars type ++
                       chars " alert-dismissible fade show " ++
                       chars (if permanent then "alert-permanent" else "")))
    by reflexivity.
  rewrite split_ws_word; [|by repeat constructor|done].
  apply list_elem_of_here.
Qed.

(** C9, as the claim states it, fails on a page whose only container is not
    the first element of its tag among its siblings: a container exists, the
    selector passes it over, and the alert becomes the first child of the
    body while the container stays empty.  On a second page the selector
    finds the container inside the navigation bar before the main one, and
    the alert goes into the navigation bar. *)
Lemma showAlert_container_passed_over_counterexample :
  let main := Node 2 "div" "container" "" [] in
  let pg0 :=
    {| body := Node 0 "body" "" "" [Node 1 "div" "navbar" "" []; main];
       fresh := 3; timers := []; calls := [] |} in
  let inner := Node 2 "div" "container" "" [] in
  let content := Node 3 "main" "container" "" [] in
  let pg1 :=
    {| body := Node 0 "body" "" "" [Node 1 "nav" "navbar" "" [inner]; content];
       fresh := 4; timers := []; calls := [] |} in
  let alert0 := Node 3 "div" (alert_className "info" false) (alert_markup "hello") [] in
  let alert1 := Node 4 "div" (alert_className "info" false) (alert_markup "hello") [] in
  (get [1%nat] (body pg0) = Some main ∧ has_container_class main = true ∧
   body (showAlert "info" "hello" false pg0) =
     Node 0 "body" "" "" [alert0; Node 1 "div" "navbar" "" []; main]) ∧
  (get [1%nat] (body pg1) = Some content ∧ has_container_class content = true ∧
   body (showAlert "info" "hello" false pg1) =
     Node 0 "body" "" ""
       [Node 1 "nav" "navbar" "" [Node 2 "div" "container" "" [alert1]]; content]).
Proof. repeat split. Qed.

(** C9, amended. [showAlert] puts the new alert in front of the children of
    its container: the first element in document order that has the class
    container and is the first of its tag among its siblings, or the body when
    there is no such element.  The alert has the classes alert and
    alert-dismissible, its markup is the message followed by a close button
    and, for a type without white space, it has the class of that severity.
    Unless the alert is permanent, one timer of 5000 ms is added whose
    callback closes this alert; for a permanent alert no timer is added. *)
Theorem showAlert_inserts_first_and_schedules
    (type message : string) (permanent : bool) (pg : page) :
  let pg' := showAlert type message permanent pg in
  let alertDiv :=
    Node (fresh pg) "div" (alert_className type permanent) (alert_markup message) [] in
  let place := alert_container (body pg) in
  ∃ container,
    get place (body pg) = Some container ∧
    ((matches_container true place (body pg) ∧
      ∀ q, matches_container true q (body pg) → q = place ∨ before place q)
     ∨ ((∀ q, ¬ matches_container true q (body pg)) ∧ container = body pg)) ∧
    get place (body pg') =
      Some (Node (uid container) (tag container) (className container)
                 (innerHTML container) (alertDiv :: children container)) ∧
    has_class "alert-dismissible" (className alertDiv) ∧
    contains message (innerHTML alertDiv) ∧
    (forallb (λ c, negb (is_ascii_ws c)) (chars type) = true →
       has_class ("alert-" +:+ type) (className alertDiv)) ∧
    has_class "alert" (className alertDiv) ∧
    className alertDiv =
      "alert alert-" +:+ type +:+ " alert-dismissible fade show " +:+
      (if permanent then "alert-permanent" else "") ∧
    innerHTML alertDiv =
      nl +:+ "            " +:+ message +:+
      nl +:+ "            <button type=" +:+ dq +:+ "button" +:+ dq +:+
             " class=" +:+ dq +:+ "btn-close" +:+ dq +:+
             " data-bs-dismiss=" +:+ dq +:+ "alert" +:+ dq +:+ "></button>" +:+
      nl +:+ "        " ∧
    if permanent then
      timers pg' = timers pg ∧
      has_class "alert-permanent" (className alertDiv)
    else
      timers pg' = timers pg ++ [(5000, CloseIfAttached (uid alertDiv))] ∧
      calls (run_task (CloseIfAttached (uid alertDiv)) pg') =
        calls pg' ++ [AlertClose (uid alertDiv)].
Proof.
  intros pg' alertDiv place.
  destruct (alert_container_get (body pg)) as [container Hc].
  exists container. fold place in Hc.
  assert (Hbody : body pg' = insert_first place alertDiv (body pg)).
  { subst pg'. unfold showAlert. by destruct permanent. }
  split; [done|]. split.
  { destruct (alert_container_first (body pg)) as [H|[Hnone Hnil]]; [by left|].
    right. split; [done|]. subst place. rewrite Hnil in Hc. by injection Hc. }
  split. { rewrite Hbody. by apply get_insert_first. }
  split. { apply alert_className_dismissible. }
  split. { apply alert_markup_contains. }
  split. { apply alert_className_severity. }
  split. { apply alert_className_alert. }
  split. { done. }
  split. { done. }
  destruct permanent.
  - split; [done|]. apply alert_className_permanent.
  - split; [done|].
    unfold run_task. rewrite Hbody.
    change (fresh pg) with (uid alertDiv).
    by rewrite (has_descendant_insert_first _ _ _ _ Hc).
Qed.

(** The selector on three pages: a container inside the navigation bar is
    found before the main one; a container that is the second [div] of its
    parent is passed over; and with no match the alert goes to the body. *)
Example query_container_pages :
  query_container true
    (Node 0 "body" "" ""
       [Node 1 "nav" "navbar" "" [Node 2 "div" "container" "" []];
        Node 3 "div" "container" "" []]) = Some [0; 0]%nat ∧
  query_container true
    (Node 0 "body" "" ""
       [Node 1 "div" "navbar" "" []; Node 2 "div" "container" "" [];
        Node 3 "main" "py-4 container" "" []]) = Some [2%nat] ∧
  alert_container
    (Node 0 "body" "" ""
       [Node 1 "div" "navbar" "" []; Node 2 "div" "container" "" []]) = [].
Proof. repeat split. Qed.

(** A danger alert on a page whose body holds a navigation bar and the
    main container. *)
Lemma showAlert_inserts_first_and_schedules_witness :
  let main := Node 2 "main" "container py-4" "" [] in
  let pg0 :=
    {| body := Node 0 "body" "" "" [Node 1 "nav" "navbar" "" []; main];
       fresh := 3; timers := []; calls := [] |} in
  let alertDiv :=
    Node 3 "div" "alert alert-danger alert-dismissible fade show "
         (alert_markup "bad") [] in
  get [1%nat] (body (showAlert "danger" "bad" false pg0)) =
    Some (Node 2 "main" "container py-4" "" [alertDiv]) ∧
  has_class "alert-danger" (className alertDiv) ∧
  timers (showAlert "danger" "bad" false pg0) = [(5000, CloseIfAttached 3)].
Proof.
  intros main pg0 alertDiv.
  destruct (showAlert_inserts_first_and_schedules "danger" "bad" false pg0)
    as (container & Hc & _ & Hget & _ & _ & Hsev & _ & _ & _ & Htimers & _).
  injection Hc as <-.
  split; [exact Hget|]. split; [|exact Htimers].
  apply Hsev. reflexivity.
Defined.

End alerts.

(** ** AJAX form submission *)

Section ajax.
Import Dom Alerts Ajax.

Lemma showAlert_body type message permanent pg :
  body (showAlert type message permanent pg) =
    insert_first (alert_container (body pg))
      (Node (fresh pg) "div" (alert_className type permanent) (alert_markup message) [])
      (body pg).
Proof. unfold showAlert. by destruct permanent. Qed.

(** After [showAlert], the first child of the alert's container is the new
    alert. *)
Lemma showAlert_first_child type message permanent pg :
  ∃ container,
    get (alert_container (body pg)) (body (showAlert type message permanent pg))
      = Some container ∧
    children container !! 0%nat =
      Some (Node (fresh pg) "div" (alert_className type permanent)
                 (alert_markup message) []).
Proof.
  destruct (alert_container_get (body pg)) as [c Hc].
  eexists. split.
  - rewrite showAlert_body. by apply get_insert_first.
  - done.
Qed.

Lemma contains_empty s : contains "" s.
Proof. by exists "", s. Qed.

(** The listener finds the submit control and the chain runs to its end. *)
Lemma submit_runs st b o :
  submit_control (the_form st) = Some b →
  submit o st =
    Some (settle o (Ajax.innerHTML b)
            (with_form (with_button {| Ajax.innerHTML := spinner; disabled := true |}
                                    (the_form st)) st)).
Proof. intros Hb. unfold submit, on_submit. by rewrite Hb. Qed.

(** C3. When a submitted AJAX form is answered with a body whose success
    flag is true and whose redirect is a non-empty URL, the location is set
    to that URL, and the page is as before: no alert has been inserted and
    no timer set. *)
Theorem ajax_redirect_navigates_without_alert
    (st : state) (b : button) (d : data) (url : string) :
  submit_control (the_form st) = Some b →
  success d = true →
  redirect d = Some url →
  url ≠ "" →
  ∃ st',
    submit (Body d) st = Some st' ∧
    location_href st' = url ∧
    page st' = page st.
Proof.
  intros Hb Hs Hr Hurl. eexists. split; [by apply submit_runs|].
  unfold settle, on_data. rewrite Hs, Hr. simpl.
  destruct url; [done|]. by simpl.
Qed.

Lemma ajax_redirect_navigates_without_alert_witness :
  let st0 :=
    {| page := {| body := Node 0 "body" "" "" []; fresh := 1; timers := []; calls := [] |};
       location_href := "/form";
       the_form := {| data_reset := false; data_reload := false; classList := [];
                      submit_control := Some {| Ajax.innerHTML := "Save"; disabled := false |};
                      resets := 0 |};
       console := [] |} in
  ∃ st',
    submit (Body {| success := true; message := None; redirect := Some "/x" |}) st0
      = Some st' ∧
    location_href st' = "/x" ∧
    page st' = page st0.
Proof.
  intros st0.
  apply (ajax_redirect_navigates_without_alert st0
           {| Ajax.innerHTML := "Save"; disabled := false |}
           {| success := true; message := None; redirect := Some "/x" |} "/x").
  - reflexivity.
  - reflexivity.
  - reflexivity.
  - discriminate.
Defined.

(** C4. When a submitted AJAX form is answered with a body whose success
    flag is false, an alert of class alert-danger becomes the first child of
    the alert container, and its markup contains the message of the body, or
    the default error message when the body has none. *)
Theorem ajax_failure_shows_danger_alert (st : state) (b : button) (d : data) :
  submit_control (the_form st) = Some b →
  success d = false →
  ∃ st' container alertDiv,
    submit (Body d) st = Some st' ∧
    get (alert_container (body (page st))) (body (page st')) = Some container ∧
    children container !! 0%nat = Some alertDiv ∧
    has_class "alert-danger" (className alertDiv) ∧
    match message d with
    | Some m => contains m (Alerts.innerHTML alertDiv)
    | None => contains "An error occurred" (Alerts.innerHTML alertDiv)
    end.
Proof.
  intros Hb Hs.
  set (shown := or_else (field (message d)) "An error occurred").
  destruct (showAlert_first_child "danger" shown false (page st))
    as (container & Hget & Hkid).
  eexists _, container, _. split; [by apply submit_runs|].
  unfold settle, on_data. rewrite Hs. simpl. fold shown.
  split; [exact Hget|]. split; [exact Hkid|]. simpl. split.
  - by apply (alert_className_severity "danger" false).
  - subst shown. unfold or_else, field.
    destruct (message d) as [m|]; simpl.
    + destruct m as [|c m]; simpl;
        [apply contains_empty | apply alert_markup_contains].
    + apply alert_markup_contains.
Qed.

Lemma ajax_failure_shows_danger_alert_witness :
  let st0 :=
    {| page := {| body := Node 0 "body" "" "" []; fresh := 1; timers := []; calls := [] |};
       location_href := "/form";
       the_form := {| data_reset := false; data_reload := false; classList := [];
                      submit_control := Some {| Ajax.innerHTML := "Save"; disabled := false |};
                      resets := 0 |};
       console := [] |} in
  ∃ st' container alertDiv,
    submit (Body {| success := false; message := Some "bad"; redirect := None |}) st0
      = Some st' ∧
    get (alert_container (body (page st0))) (body (page st')) = Some container ∧
    children container !! 0%nat = Some alertDiv ∧
    has_class "alert-danger" (className alertDiv) ∧
    contains "bad" (Alerts.innerHTML alertDiv).
Proof.
  intros st0.
  apply (ajax_failure_shows_danger_alert st0
           {| Ajax.innerHTML := "Save"; disabled := false |}
           {| success := false; message := Some "bad"; redirect := None |}).
  - reflexivity.
  - reflexivity.
Defined.

(** C5. Whatever the outcome of the request of a submitted AJAX form, a
    body that reports success with or without a redirect, a body that
    reports failure, a body that is not usable, or a network failure, once
    the chain has run the submit control has the label it had when the form
    was submitted, and is enabled; in between it is disabled.  This holds
    for whatever state the page is in when the request ends. *)
Theorem ajax_submit_control_restored (st : state) (b : button) (o : outcome) :
  submit_control (the_form st) = Some b →
  ∃ originalText st1 st',
    on_submit st = Some (originalText, st1) ∧
    submit_control (the_form st1) =
      Some {| Ajax.innerHTML := spinner; disabled := true |} ∧
    submit o st = Some st' ∧
    submit_control (the_form st') =
      Some {| Ajax.innerHTML := Ajax.innerHTML b; disabled := false |} ∧
    ∀ st2,
      submit_control (the_form (settle o originalText st2)) =
        Some {| Ajax.innerHTML := Ajax.innerHTML b; disabled := false |}.
Proof.
  intros Hb. eexists _, _, _.
  split; [unfold on_submit; by rewrite Hb|].
  split; [done|].
  split; [by apply submit_runs|].
  split; [done|]. done.
Qed.

Lemma ajax_submit_control_restored_witness :
  let st0 :=
    {| page := {| body := Node 0 "body" "" "" []; fresh := 1; timers := []; calls := [] |};
       location_href := "/form";
       the_form := {| data_reset := true; data_reload := true; classList := ["was-validated"];
                      submit_control := Some {| Ajax.innerHTML := "Save"; disabled := false |};
                      resets := 0 |};
       console := [] |} in
  ∃ st',
    submit (FetchRejected "TypeError: Failed to fetch") st0 = Some st' ∧
    submit_control (the_form st') =
      Some {| Ajax.innerHTML := "Save"; disabled := false |}.
Proof.
  intros st0.
  destruct (ajax_submit_control_restored st0
              {| Ajax.innerHTML := "Save"; disabled := false |}
              (FetchRejected "TypeError: Failed to fetch") eq_refl)
    as (originalText & st1 & st' & _ & _ & Hsub & Hbtn & _).
  exists st'. split; [exact Hsub | exact Hbtn].
Defined.

End ajax.

(** ** Copy to clipboard *)

Section clipboard.
Import Dom Clipboard.



End clipboard.

(** ** Tab persistence *)

Section tabs.
Import Tabs.

(** The restore, for a stored selector that is non-empty and is carried
    literally by the quoted attribute selector. *)
Lemma restore_plain ls doc s :
  ls !! "activeTab" = Some s → s ≠ "" → css_plain s = true →
  restore ls doc =
    Some match query_href s doc with Some a => Shown a | None => Nothing end.
Proof.
  intros Hs Hne Hplain. unfold restore. rewrite Hs, Hplain.
  destruct s; [done|]. simpl. by destruct (query_href _ doc).
Qed.



(** A click whose target has no href, such as an icon inside the trigger,
    stores the text null, which matches no anchor at the next load. *)
Example tab_click_without_href :
  on_click None ∅ !! "activeTab" = Some "null" ∧
  restore (on_click None ∅) [ {| anchor_id := 1; href := Some "#home" |} ]
    = Some Nothing.
Proof. split; reflexivity. Qed.

(** With the key absent or the stored text empty, the guard [if (activeTab)]
    skips the restore. *)
Lemma restore_absent_or_empty (ls : gmap string string) (doc : list anchor) :
  ls !! "activeTab" = None ∨ ls !! "activeTab" = Some "" →
  restore ls doc = Some Nothing.
Proof. intros [H|H]; unfold restore; by rewrite H. Qed.







End tabs.

(** ** Image preview *)

Section preview.
Import Preview.

(** The change listener on an input whose data-preview names an element of
    the page: the preview is emptied and one read per file is started. *)
Lemma on_change_resolved i st pid old :
  data_preview i = Some pid → pid ≠ "" → elements st !! pid = Some old →
  on_change i st =
    {| elements := <[pid := []]> (elements st);
       pending := pending st ++ ((λ f, {| target := pid; source := f |}) <$> files i) |}.
Proof.
  intros Hattr Hne Hel. unfold on_change. rewrite Hattr.
  destruct pid; [done|]. simpl. by rewrite Hel.
Qed.








(** Without a data-preview attribute, or with one that names no element,
    the change listener does nothing. *)
Lemma on_change_unresolved i st :
  data_preview i = None ∨ data_preview i = Some "" ∨
  (∃ pid, data_preview i = Some pid ∧ elements st !! pid = None) →
  on_change i st = st.
Proof.
  unfold on_change. intros [->|[->|(pid & -> & Hnone)]]; [done..|].
  rewrite Hnone. by destruct (truthy pid).
Qed.




End preview.

(** ** Phone number formatting: what the listener keeps *)

Section phone_stability.
Import Regex Phone.

Lemma filter_digits d :
  Forall (λ c, is_digit c = true) d → filter (λ c, is_digit c = true) d = d.
Proof.
  induction 1 as [|c d Hc _ IH]; [done|].
  rewrite filter_cons_True by done. by rewrite IH.
Qed.

Lemma digits_str l : digits (str l) = filter (λ c, is_digit c = true) l.
Proof. unfold digits. by rewrite chars_str. Qed.

Lemma digits_group a b :
  Forall (λ c, is_digit c = true) a →
  filter (λ c, is_digit c = true) (a ++ chars "-" ++ b) =
    a ++ filter (λ c, is_digit c = true) b.
Proof.
  intros Ha. by rewrite filter_app, filter_digits.
Qed.

(** The hyphens that the replacement puts between the groups are dropped
    again when the digits are read back. *)
Lemma digits_format v : digits (format v) = digits v.
Proof.
  pose proof (digits_all v) as Hd.
  rewrite format_by_length. cbv zeta.
  set (d := digits v) in *.
  assert (H3 : ∀ n, Forall (λ c, is_digit c = true) (take n d))
    by (intros; by apply Forall_take).
  assert (H4 : ∀ n m, Forall (λ c, is_digit c = true) (take n (drop m d)))
    by (intros; by apply Forall_take, Forall_drop).
  assert (H5 : ∀ n, Forall (λ c, is_digit c = true) (drop n d))
    by (intros; by apply Forall_drop).
  repeat case_match; rewrite digits_str.
  - by apply filter_digits.
  - rewrite digits_group, filter_digits by done. apply take_drop.
  - rewrite !digits_group, filter_digits by done.
    change 6%nat with (3 + 3)%nat. by rewrite <- drop_drop, !take_drop.
  - rewrite !digits_group, filter_digits by done.
    change 10%nat with (6 + 4)%nat. rewrite <- (drop_drop d 4 6), take_drop.
    change 6%nat with (3 + 3)%nat. by rewrite <- drop_drop, !take_drop.
Qed.

Lemma format_chars v :
  Forall (λ c, is_digit c = true ∨ c = "-"%char) (chars (format v)).
Proof.
  pose proof (digits_all v) as Hd.
  rewrite format_by_length. cbv zeta.
  set (d := digits v) in *.
  assert (Hw : ∀ l, Forall (λ c, is_digit c = true) l →
                    Forall (λ c, is_digit c = true ∨ c = "-"%char) l)
    by (intros l Hl; eapply Forall_impl; [exact Hl | by left]).
  assert (Hh : Forall (λ c, is_digit c = true ∨ c = "-"%char) (chars "-"))
    by (repeat constructor; by right).
  repeat case_match; rewrite chars_str;
    repeat (apply Forall_app; split);
    solve [ done | by apply Hw | by apply Hw, Forall_take
          | by apply Hw, Forall_drop | by apply Hw, Forall_take, Forall_drop ].
Qed.

(** X1. An input event on a phone field never changes the digits of the
    value or their order, and leaves nothing in the field but digits and
    hyphens. *)
Theorem phone_input_keeps_the_digits (i : Phone.input) :
  digits (Phone.value (on_input i)) = digits (Phone.value i) ∧
  Forall (λ c, is_digit c = true ∨ c = "-"%char) (chars (Phone.value (on_input i))).
Proof. split; [apply digits_format | apply format_chars]. Qed.

(** X2. The listener is stable: run on a value it has produced, it leaves
    that value as it is, so an input event that changes nothing (or a
    second listener) does not move the hyphens. *)
Theorem phone_input_idempotent (i : Phone.input) :
  on_input (on_input i) = on_input i.
Proof.
  unfold on_input. simpl. f_equal.
  rewrite (format_digits (format (Phone.value i))), digits_format.
  by rewrite <- format_digits.
Qed.

(** X3. Up to ten digits: with at most three digits the field holds just
    the digits (the empty value stays empty); with four to six, the first
    three, a hyphen and the rest; with seven to ten, two groups of three and
    the rest. *)
Theorem phone_input_partial_groups (i : Phone.input) :
  let d := digits (Phone.value i) in
  let v' := Phone.value (on_input i) in
  ((length d ≤ 3)%nat → v' = str d) ∧
  ((3 < length d ≤ 6)%nat → v' = str (take 3 d) +:+ "-" +:+ str (drop 3 d)) ∧
  ((6 < length d ≤ 10)%nat →
     v' = str (take 3 d) +:+ "-" +:+ str (take 3 (drop 3 d)) +:+ "-" +:+
          str (drop 6 d)).
Proof.
  intros d v'. subst v'. unfold on_input. simpl.
  rewrite format_by_length. fold d. cbv zeta.
  split; [|split]; intros Hlen.
  - by rewrite (proj2 (Nat.leb_le _ _)) by lia.
  - rewrite (proj2 (Nat.leb_gt _ _)), (proj2 (Nat.leb_le _ _)) by lia.
    by rewrite !str_app.
  - rewrite !(proj2 (Nat.leb_gt _ 3)), !(proj2 (Nat.leb_gt _ 6)),
      (proj2 (Nat.leb_le _ _)) by lia.
    by rewrite !str_app.
Qed.

Lemma phone_input_partial_groups_witness :
  Phone.value (on_input {| Phone.value := "12" |}) = "12" ∧
  Phone.value (on_input {| Phone.value := "(123) 45" |}) = "123-45" ∧
  Phone.value (on_input {| Phone.value := "123-4567" |}) = "123-456-7".
Proof.
  split; [|split].
  - apply (proj1 (phone_input_partial_groups {| Phone.value := "12" |})).
    simpl. lia.
  - apply (proj1 (proj2 (phone_input_partial_groups {| Phone.value := "(123) 45" |}))).
    simpl. lia.
  - apply (proj2 (proj2 (phone_input_partial_groups {| Phone.value := "123-4567" |}))).
    simpl. lia.
Defined.

End phone_stability.

(** ** Character counter: limits that are no numbers, and the classes *)

Section counter_edges.
Import Dom Counter.

Lemma elem_of_classList_add (u t : string) (l : list string) :
  u ∈ classList_add t l ↔ u = t ∨ u ∈ l.
Proof.
  unfold classList_add. destruct (decide (t ∈ l)) as [Hin|_].
  - split; [tauto|]. by intros [->|?].
  - rewrite elem_of_app, list_elem_of_singleton. tauto.
Qed.

Lemma elem_of_classList_remove (u t : string) (l : list string) :
  u ∈ classList_remove t l ↔ u ≠ t ∧ u ∈ l.
Proof. unfold classList_remove. by rewrite list_elem_of_filter. Qed.

(** A text that does not start like a numeric literal converts to NaN. *)
Lemma StringToNumber_not_literal m c rest :
  trim (chars m) = c :: rest → starts_literal c = false →
  StringToNumber m = Some NaN.
Proof.
  intros Htrim Hc. unfold StringToNumber. rewrite Htrim.
  unfold starts_literal in Hc. apply orb_false_iff in Hc as [Hd Hs].
  simpl. rewrite Hd. unfold starts_literal. by rewrite Hd, Hs.
Qed.

Lemma StringToNumber_blank m : trim (chars m) = [] → StringToNumber m = Some (Int 0).
Proof. intros Htrim. unfold StringToNumber. by rewrite Htrim. Qed.

(** [updateCounter] changes no class but text-danger. *)
Lemma updateCounter_other_classes m v c c' tok :
  updateCounter m v c = Some c' → tok ≠ "text-danger" →
  tok ∈ classList c' ↔ tok ∈ classList c.
Proof.
  unfold updateCounter. intros H Htok.
  destruct (gt_string _ m) as [[]|]; simplify_eq/=.
  - rewrite elem_of_classList_add. tauto.
  - rewrite elem_of_classList_remove. tauto.
Qed.

(** X4. A data-max-length attribute that does not start like a number
    (after white space: no digit, sign, dot or I) disables the warning: the
    set-up succeeds and, whatever is typed, the counter reads the length
    before the attribute's text and never carries text-danger. *)
Theorem counter_limit_not_a_number_never_flags
    (t : textarea) (c : ascii) (rest : list ascii) (doc0 : gmap string counter) :
  trim (chars (data_max_length t)) = c :: rest →
  starts_literal c = false →
  ∃ k doc1,
    setup t doc0 = Some (k, doc1) ∧
    is_Some (doc1 !! counterId k) ∧
    ∀ (v : string) (doc : gmap string counter),
      is_Some (doc !! counterId k) →
      ∃ doc' c',
        on_input k v doc = Some doc' ∧
        doc' !! counterId k = Some c' ∧
        textContent c' =
          of_length (N.of_nat (String.length v)) +:+ "/" +:+
          data_max_length t +:+ " characters" ∧
        "text-danger" ∉ classList c'.
Proof.
  intros Htrim Hc.
  pose proof (StringToNumber_not_literal _ _ _ Htrim Hc) as Hnan.
  unfold setup, updateCounter, gt_string. rewrite Hnan. simpl.
  eexists _, _. split; [reflexivity|]. split.
  { simpl. rewrite lookup_insert_eq. by eexists. }
  intros v doc [c0 Hc0].
  unfold on_input, updateCounter, gt_string. simpl in *.
  rewrite Hc0, Hnan. simpl.
  eexists _, _. split; [reflexivity|].
  split; [apply lookup_insert_eq|]. simpl.
  split; [done|]. apply classList_remove_elem.
Qed.

Lemma counter_limit_not_a_number_never_flags_witness :
  let t := {| id := "bio"; data_max_length := "none"; value := "" |} in
  ∃ k doc1 doc' c',
    setup t ∅ = Some (k, doc1) ∧
    on_input k "a very long text" doc1 = Some doc' ∧
    doc' !! counterId k = Some c' ∧
    textContent c' = "16/none characters" ∧
    "text-danger" ∉ classList c'.
Proof.
  intros t.
  destruct (counter_limit_not_a_number_never_flags t "n"%char (chars "one") ∅
              eq_refl eq_refl)
    as (k & doc1 & Hsetup & Hcounter & Hinput).
  destruct (Hinput "a very long text" doc1 Hcounter) as (doc' & c' & H).
  exists k, doc1, doc', c'. split; [exact Hsetup | exact H].
Defined.

(** X5. An empty or blank data-max-length attribute counts as the limit 0:
    the counter carries text-danger exactly when the textarea is not
    empty. *)
Theorem counter_blank_limit_flags_any_text
    (t : textarea) (doc0 : gmap string counter) :
  trim (chars (data_max_length t)) = [] →
  ∃ k doc1,
    setup t doc0 = Some (k, doc1) ∧
    is_Some (doc1 !! counterId k) ∧
    ∀ (v : string) (doc : gmap string counter),
      is_Some (doc !! counterId k) →
      ∃ doc' c',
        on_input k v doc = Some doc' ∧
        doc' !! counterId k = Some c' ∧
        ("text-danger" ∈ classList c' ↔ v ≠ "").
Proof.
  intros Htrim. pose proof (StringToNumber_blank _ Htrim) as Hzero.
  unfold setup, updateCounter, gt_string. rewrite Hzero. simpl.
  eexists _, _. split; [reflexivity|]. split.
  { simpl. rewrite lookup_insert_eq. by eexists. }
  intros v doc [c0 Hc0].
  unfold on_input, updateCounter, gt_string. simpl in *.
  rewrite Hc0, Hzero. simpl.
  eexists _, _. split; [reflexivity|].
  split; [apply lookup_insert_eq|]. simpl.
  destruct v as [|a v]; simpl.
  - split; [|done]. intros H. by apply classList_remove_elem in H.
  - split; [done|]. intros _. apply classList_add_elem.
Qed.

Lemma counter_blank_limit_flags_any_text_witness :
  let t := {| id := "bio"; data_max_length := " "; value := "" |} in
  ∃ k doc1 doc' c',
    setup t ∅ = Some (k, doc1) ∧
    on_input k "a" doc1 = Some doc' ∧
    doc' !! counterId k = Some c' ∧
    ("text-danger" ∈ classList c' ↔ "a" ≠ "").
Proof.
  intros t.
  destruct (counter_blank_limit_flags_any_text t ∅ eq_refl)
    as (k & doc1 & Hsetup & Hcounter & Hinput).
  destruct (Hinput "a" doc1 Hcounter) as (doc' & c' & H).
  exists k, doc1, doc', c'. split; [exact Hsetup | exact H].
Defined.

(** X6. The set-up names the counter counter-<id of the textarea> and
    touches no other element; a counter that is already in the page keeps
    its classes and a created one has form-text and text-end, in both cases
    apart from text-danger, the only class the behaviour adds or removes. *)
Theorem counter_setup_finds_or_creates
    (t : textarea) (doc0 doc1 : gmap string counter) (k : closure) :
  setup t doc0 = Some (k, doc1) →
  counterId k = "counter-" +:+ id t ∧
  (∀ q, q ≠ counterId k → doc1 !! q = doc0 !! q) ∧
  ∃ c1,
    doc1 !! counterId k = Some c1 ∧
    ∀ tok, tok ≠ "text-danger" →
      tok ∈ classList c1 ↔
      match doc0 !! counterId k with
      | Some c0 => tok ∈ classList c0
      | None => tok = "form-text" ∨ tok = "text-end"
      end.
Proof.
  unfold setup. intros H.
  destruct (updateCounter _ _ _) as [c1|] eqn:Hupd; simplify_eq/=.
  split; [done|]. split.
  { intros q Hq. by rewrite lookup_insert_ne. }
  exists c1. split; [apply lookup_insert_eq|].
  intros tok Htok.
  rewrite (updateCounter_other_classes _ _ _ _ _ Hupd Htok).
  destruct (doc0 !! _); [done|]. simpl.
  change (class_tokens "form-text text-end") with ["form-text"; "text-end"].
  rewrite !elem_of_cons, elem_of_nil. tauto.
Qed.

Lemma counter_setup_finds_or_creates_witness :
  let t := {| id := "bio"; data_max_length := "5"; value := "abcdefg" |} in
  let old := {| classList := ["small"; "text-muted"]; textContent := "" |} in
  ∃ k doc1 c1,
    setup t {[ "counter-bio" := old ]} = Some (k, doc1) ∧
    counterId k = "counter-bio" ∧
    doc1 !! "counter-bio" = Some c1 ∧
    ("text-muted" ∈ classList c1 ↔ "text-muted" ∈ classList old).
Proof.
  intros t old.
  destruct (setup t {[ "counter-bio" := old ]}) as [[k doc1]|] eqn:Hsetup;
    [|discriminate].
  destruct (counter_setup_finds_or_creates t _ doc1 k Hsetup)
    as (Hid & _ & c1 & Hc1 & Hcls).
  exists k, doc1, c1. split; [reflexivity|]. split; [exact Hid|].
  rewrite Hid in Hc1. split; [exact Hc1|].
  specialize (Hcls "text-muted"). rewrite Hid in Hcls.
  apply Hcls. discriminate.
Defined.

End counter_edges.

(** ** Form validation: the class on every submit *)

Section validation_marks.
Import Dom Validation.

Lemma classList_add_present (t : string) (l : list string) :
  t ∈ l → classList_add t l = l.
Proof. intros H. unfold classList_add. by rewrite decide_True. Qed.

(** X7. Every submit event, on a valid form as on an invalid one, leaves
    the form with the class was-validated and with the classes it had, and
    no others; a second submit leaves the class list as the first left it. *)
Theorem submit_marks_form_once (f : form) (e e2 : event) :
  let f1 := (on_submit f e).1 in
  (∀ tok, tok ∈ classList f1 ↔ tok = "was-validated" ∨ tok ∈ classList f) ∧
  classList (on_submit f1 e2).1 = classList f1.
Proof.
  simpl. split.
  - intros tok. unfold classList_add. case_decide as Hin.
    + split; [tauto|]. by intros [->|?].
    + rewrite elem_of_app, list_elem_of_singleton. tauto.
  - apply classList_add_present. unfold classList_add. case_decide as Hin; [done|].
    apply elem_of_app. right. by left.
Qed.

End validation_marks.

(** ** Image preview: order, other previews, and inputs without a preview *)

Section preview_more.
Import Preview.


(** Reads that complete oldest first append their thumbnails in the order
    of the files. *)
Lemma run_loads_in_order pid fs :
  ∀ st kids,
    pending st = (λ f, {| target := pid; source := f |}) <$> fs →
    elements st !! pid = Some kids →
    pending (run st (replicate (length fs) (Loaded 0))) = [] ∧
    elements (run st (replicate (length fs) (Loaded 0))) !! pid =
      Some (kids ++ (thumbnail <$> fs)).
Proof.
  induction fs as [|f fs IH]; intros st kids Hpend Hkids.
  - simpl. by rewrite app_nil_r.
  - simpl. unfold run in *. simpl.
    assert (Hstep : on_load 0 st =
              {| elements := alter (λ kids, kids ++ [thumbnail f]) pid (elements st);
                 pending := (λ f, {| target := pid; source := f |}) <$> fs |}).
    { unfold on_load. by rewrite Hpend. }
    rewrite Hstep.
    edestruct (IH {| elements := alter (λ kids, kids ++ [thumbnail f]) pid (elements st);
                     pending := (λ f, {| target := pid; source := f |}) <$> fs |}
                  (kids ++ [thumbnail f])) as [Hp He]; [done| |].
    { simpl. by rewrite lookup_alter_eq, Hkids. }
    split; [exact Hp|]. rewrite He. by rewrite <- app_assoc.
Qed.

(** X8. When no read is in flight at a change event and the reads it starts
    complete in the order in which they were started, the preview ends up
    holding the thumbnails of the selected files in the order of the
    selection, and no read is left in flight. *)
Theorem preview_in_selection_order
    (i : input) (st : state) (pid : string) (old : list child) :
  data_preview i = Some pid →
  pid ≠ "" →
  elements st !! pid = Some old →
  pending st = [] →
  let st' := run (on_change i st) (replicate (length (files i)) (Loaded 0)) in
  pending st' = [] ∧
  elements st' !! pid = Some (thumbnail <$> files i).
Proof.
  intros Hattr Hne Hel Hidle.
  rewrite (on_change_resolved _ _ _ _ Hattr Hne Hel), Hidle. simpl.
  apply (run_loads_in_order pid (files i) _ []); [done|].
  simpl. apply lookup_insert_eq.
Qed.

Lemma preview_in_selection_order_witness :
  let A := {| data_url := "data:image/png;base64,AAAA" |} in
  let B := {| data_url := "data:image/png;base64,BBBB" |} in
  let st0 := {| elements := {[ "preview" := [Markup "No image selected"] ]};
                pending := [] |} in
  let i := {| data_preview := Some "preview"; files := [A; B] |} in
  elements (run (on_change i st0) [Loaded 0; Loaded 0]) !! "preview" =
    Some [thumbnail A; thumbnail B].
Proof.
  intros A B st0 i.
  apply (preview_in_selection_order i st0 "preview" [Markup "No image selected"]).
  - reflexivity.
  - discriminate.
  - reflexivity.
  - reflexivity.
Defined.

(** X9. A preview element is changed only through inputs that name it: over
    any history of change events and completed reads in which no change
    event comes from an input whose data-preview is [q], and with no read
    for [q] in flight at the start, the element [q] keeps its children. *)
Theorem preview_leaves_other_elements (q : string) (trace : list step) :
  ∀ st,
    Forall (λ e, match e with
                 | Change i => data_preview i ≠ Some q
                 | Loaded _ => True
                 end) trace →
    Forall (λ r, target r ≠ q) (pending st) →
    elements (run st trace) !! q = elements st !! q.
Proof.
  induction trace as [|e trace IH]; intros st Htrace Hpend; [done|].
  apply Forall_cons in Htrace as [He Htrace].
  unfold run. simpl. fold (run (exec st e) trace).
  assert (elements (exec st e) !! q = elements st !! q ∧
          Forall (λ r, target r ≠ q) (pending (exec st e))) as [Hel Hpend'].
  { destruct e as [i|k]; simpl.
    - unfold on_change. destruct (data_preview i) as [pid|]; [|done].
      destruct (truthy pid); [|done].
      destruct (elements st !! pid); [|done]. simpl. split.
      + apply lookup_insert_ne. congruence.
      + apply Forall_app. split; [done|].
        apply Forall_fmap, Forall_forall. intros f _. simpl. congruence.
    - unfold on_load. destruct (pending st !! k) as [r|] eqn:Hk; [|done].
      simpl. split.
      + apply lookup_alter_ne. eapply Forall_lookup_1 in Hpend; done.
      + by apply Forall_delete. }
  rewrite <- Hel. by apply IH.
Qed.

Lemma preview_leaves_other_elements_witness :
  let A := {| data_url := "data:image/png;base64,AAAA" |} in
  let st0 := {| elements := {[ "logo" := [Markup "logo"]; "photo" := [] ]};
                pending := [] |} in
  elements (run st0 [ Change {| data_preview := Some "photo"; files := [A] |};
                      Loaded 0 ]) !! "logo" = Some [Markup "logo"].
Proof.
  intros A st0.
  rewrite (preview_leaves_other_elements "logo"
             [ Change {| data_preview := Some "photo"; files := [A] |}; Loaded 0 ] st0).
  - reflexivity.
  - repeat constructor. discriminate.
  - constructor.
Defined.

(** X10. An input without a data-preview attribute, with an empty one, or
    with one that is the id of no element is ignored: a change event on it
    clears nothing and starts no read, whatever files were selected. *)
Theorem preview_ignores_unresolved_input (i : input) (st : state) :
  (data_preview i = None ∨ data_preview i = Some "" ∨
   ∃ pid, data_preview i = Some pid ∧ elements st !! pid = None) →
  elements (on_change i st) = elements st ∧
  pending (on_change i st) = pending st.
Proof. intros H. by rewrite (on_change_unresolved _ _ H). Qed.

Lemma preview_ignores_unresolved_input_witness :
  let A := {| data_url := "data:image/png;base64,AAAA" |} in
  let st0 := {| elements := {[ "preview" := [Markup "No image selected"] ]};
                pending := [] |} in
  let i := {| data_preview := Some "prevue"; files := [A] |} in
  elements (on_change i st0) = elements st0 ∧
  pending (on_change i st0) = pending st0.
Proof.
  intros A st0 i. apply (preview_ignores_unresolved_input i st0).
  right. right. exists "prevue". split; reflexivity.
Defined.

End preview_more.

(** ** AJAX form submission: success without a redirect, and failures of
    the request *)

Section ajax_outcomes.
Import Dom Alerts Ajax.

Lemma showAlert_timers type message pg :
  timers (showAlert type message false pg) =
    timers pg ++ [(5000, CloseIfAttached (fresh pg))].
Proof. done. Qed.

(** X11. When a submitted AJAX form is answered with success and without a
    redirect (none, or an empty one), the location stays, a success alert
    with the message of the answer, or with 'Operation successful' when it
    has none, becomes the first child of the alert container, the form is
    reset and loses was-validated exactly when it has data-reset, and a
    reload is scheduled after 1500 ms exactly when it has data-reload. *)
Theorem ajax_success_alerts_resets_reloads (st : state) (b : button) (d : data) :
  submit_control (the_form st) = Some b →
  success d = true →
  redirect d = None ∨ redirect d = Some "" →
  ∃ st' container alertDiv,
    submit (Body d) st = Some st' ∧
    location_href st' = location_href st ∧
    get (alert_container (body (page st))) (body (page st')) = Some container ∧
    children container !! 0%nat = Some alertDiv ∧
    has_class "alert-success" (className alertDiv) ∧
    contains (or_else (field (message d)) "Operation successful")
             (Alerts.innerHTML alertDiv) ∧
    (if data_reset (the_form st)
     then resets (the_form st') = S (resets (the_form st)) ∧
          "was-validated" ∉ classList (the_form st')
     else resets (the_form st') = resets (the_form st) ∧
          classList (the_form st') = classList (the_form st)) ∧
    timers (page st') =
      timers (page st) ++
      (5000, CloseIfAttached (fresh (page st))) ::
      (if data_reload (the_form st) then [(1500, Reload)] else []).
Proof.
  intros Hb Hs Hr.
  assert (Hfalsy : truthy (field (redirect d)) = false)
    by (by destruct Hr as [-> | ->]).
  set (shown := or_else (field (message d)) "Operation successful").
  destruct (showAlert_first_child "success" shown false (page st))
    as (container & Hget & Hkid).
  eexists _, container, _. split; [by apply submit_runs|].
  unfold settle, on_data. rewrite Hs, Hfalsy. simpl. fold shown.
  destruct (data_reset (the_form st)) eqn:Hreset; simpl; rewrite ?Hreset;
    destruct (data_reload (the_form st)) eqn:Hreload; simpl.
  all: split; [done|].
  all: split; [exact Hget|].
  all: split; [exact Hkid|].
  all: split; [by apply (alert_className_severity "success" false)|].
  all: split; [apply alert_markup_contains|].
  all: split; [|by rewrite <- ?app_assoc].
  all: try done.
  all: split; [done | apply classList_remove_elem].
Qed.

Lemma ajax_success_alerts_resets_reloads_witness :
  let st0 :=
    {| page := {| body := Node 0 "body" "" "" []; fresh := 1; timers := []; calls := [] |};
       location_href := "/form";
       the_form := {| data_reset := true; data_reload := true;
                      classList := ["was-validated"];
                      submit_control := Some {| Ajax.innerHTML := "Save"; disabled := false |};
                      resets := 0 |};
       console := [] |} in
  ∃ st' container alertDiv,
    submit (Body {| success := true; message := None; redirect := Some "" |}) st0
      = Some st' ∧
    location_href st' = "/form" ∧
    get (alert_container (body (page st0))) (body (page st')) = Some container ∧
    children container !! 0%nat = Some alertDiv ∧
    has_class "alert-success" (className alertDiv) ∧
    contains "Operation successful" (Alerts.innerHTML alertDiv) ∧
    (resets (the_form st') = 1%nat ∧ "was-validated" ∉ classList (the_form st')) ∧
    timers (page st') = [(5000, CloseIfAttached 1); (1500, Reload)].
Proof.
  intros st0.
  apply (ajax_success_alerts_resets_reloads st0
           {| Ajax.innerHTML := "Save"; disabled := false |}
           {| success := true; message := None; redirect := Some "" |}).
  - reflexivity.
  - reflexivity.
  - right. reflexivity.
Defined.

(** X12. When the request fails (fetch rejects, the body is not JSON, or
    the body is null), a danger alert reading 'Network error. Please try
    again.' becomes the first child of the alert container and the error is
    written to the console; the location stays, the form is not reset, and
    no reload is scheduled. *)
Theorem ajax_request_failure_alerts_and_logs
    (st : state) (b : button) (o : outcome) (error : string) :
  submit_control (the_form st) = Some b →
  o = FetchRejected error ∨ o = BodyNotJson error ∨ o = BodyNull error →
  ∃ st' container alertDiv,
    submit o st = Some st' ∧
    get (alert_container (body (page st))) (body (page st')) = Some container ∧
    children container !! 0%nat = Some alertDiv ∧
    has_class "alert-danger" (className alertDiv) ∧
    contains "Network error. Please try again." (Alerts.innerHTML alertDiv) ∧
    console st' = console st ++ ["Error: " +:+ error] ∧
    location_href st' = location_href st ∧
    resets (the_form st') = resets (the_form st) ∧
    classList (the_form st') = classList (the_form st) ∧
    timers (page st') = timers (page st) ++ [(5000, CloseIfAttached (fresh (page st)))].
Proof.
  intros Hb Ho.
  destruct (showAlert_first_child "danger" "Network error. Please try again."
              false (page st)) as (container & Hget & Hkid).
  eexists _, container, _. split; [by apply submit_runs|].
  assert (settle o (Ajax.innerHTML b)
            (with_form (with_button {| Ajax.innerHTML := spinner; disabled := true |}
                                    (the_form st)) st) =
          on_finally (Ajax.innerHTML b)
            (on_error error
               (with_form (with_button {| Ajax.innerHTML := spinner; disabled := true |}
                                       (the_form st)) st))) as ->
    by (by destruct Ho as [-> | [-> | ->]]).
  simpl. split; [exact Hget|]. split; [exact Hkid|].
  split; [by apply (alert_className_severity "danger" false)|].
  split; [apply alert_markup_contains|]. done.
Qed.

Lemma ajax_request_failure_alerts_and_logs_witness :
  let st0 :=
    {| page := {| body := Node 0 "body" "" "" []; fresh := 1; timers := []; calls := [] |};
       location_href := "/form";
       the_form := {| data_reset := true; data_reload := true;
                      classList := ["was-validated"];
                      submit_control := Some {| Ajax.innerHTML := "Save"; disabled := false |};
                      resets := 0 |};
       console := [] |} in
  ∃ st' container alertDiv,
    submit (BodyNotJson "SyntaxError") st0 = Some st' ∧
    get (alert_container (body (page st0))) (body (page st')) = Some container ∧
    children container !! 0%nat = Some alertDiv ∧
    has_class "alert-danger" (className alertDiv) ∧
    contains "Network error. Please try again." (Alerts.innerHTML alertDiv) ∧
    console st' = ["Error: SyntaxError"] ∧
    location_href st' = "/form" ∧
    resets (the_form st') = 0%nat ∧
    classList (the_form st') = ["was-validated"] ∧
    timers (page st') = [(5000, CloseIfAttached 1)].
Proof.
  intros st0.
  apply (ajax_request_failure_alerts_and_logs st0
           {| Ajax.innerHTML := "Save"; disabled := false |}
           (BodyNotJson "SyntaxError") "SyntaxError").
  - reflexivity.
  - right. left. reflexivity.
Defined.

(** X13. A submission changes the location in one case only: the answer
    has success true and a non-empty redirect, and the location is then that
    redirect. *)
Theorem ajax_location_changes_only_by_redirect
    (st st' : state) (o : outcome) :
  submit o st = Some st' →
  location_href st' ≠ location_href st →
  ∃ d url,
    o = Body d ∧ success d = true ∧ redirect d = Some url ∧ url ≠ "" ∧
    location_href st' = url.
Proof.
  unfold submit, on_submit. intros H Hloc.
  destruct (submit_control (the_form st)) as [b|]; simplify_eq/=.
  destruct o as [error|error|error|d]; simpl in Hloc; try done.
  unfold settle, on_data in Hloc |- *. simpl in *.
  destruct (success d) eqn:Hs; [|done].
  destruct (redirect d) as [url|] eqn:Hr; simpl in *.
  - destruct url as [|c url]; simpl in *.
    + by repeat case_match.
    + exists d, (String c url). by rewrite Hs, Hr.
  - by repeat case_match.
Qed.

Lemma ajax_location_changes_only_by_redirect_witness :
  let st0 :=
    {| page := {| body := Node 0 "body" "" "" []; fresh := 1; timers := []; calls := [] |};
       location_href := "/form";
       the_form := {| data_reset := false; data_reload := false; classList := [];
                      submit_control := Some {| Ajax.innerHTML := "Save"; disabled := false |};
                      resets := 0 |};
       console := [] |} in
  let o := Body {| success := true; message := None; redirect := Some "/x" |} in
  ∃ st' d url,
    submit o st0 = Some st' ∧
    o = Body d ∧ success d = true ∧ redirect d = Some url ∧ url ≠ "" ∧
    location_href st' = url.
Proof.
  intros st0 o.
  destruct (submit o st0) as [st'|] eqn:Hsubmit; [|discriminate].
  destruct (ajax_location_changes_only_by_redirect st0 st' o Hsubmit)
    as (d & url & H).
  - injection Hsubmit as <-. discriminate.
  - exists st', d, url. split; [reflexivity | exact H].
Defined.

End ajax_outcomes.

(** ** Copy to clipboard: where the text comes from, and the label *)

Section clipboard_more.
Import Dom Clipboard.

Lemma classList_remove_add (t : string) (l : list string) :
  t ∉ l → classList_remove t (classList_add t l) = l.
Proof.
  intros Hnot. unfold classList_add, classList_remove.
  rewrite decide_False by done.
  rewrite filter_app, filter_cons_False, filter_nil, app_nil_r by (by intros ?).
  induction l as [|u l IH]; [done|].
  apply not_elem_of_cons in Hnot as [Hu Hl].
  rewrite filter_cons_True by done. by rewrite IH.
Qed.

(** X14. Without a data-clipboard-text attribute, or with an empty one,
    the text copied is the [value] of the element before the control when it
    has a non-empty one, and that element's text otherwise; when there is no
    element before the control the listener throws before anything is
    written: nothing is copied, the label stays and nothing is logged. *)
Theorem copy_falls_back_to_previous_element (st : state) (o : outcome) :
  data_clipboard_text (the_button st) = None ∨
  data_clipboard_text (the_button st) = Some "" →
  match previousElementSibling (the_button st) with
  | None => on_click o st = None
  | Some p =>
      ∃ st', on_click Written st = Some st' ∧
        (∀ v, sibling_value p = Some v → v ≠ "" → clipboard st' = v) ∧
        (sibling_value p = None ∨ sibling_value p = Some "" →
         clipboard st' = sibling_textContent p)
  end.
Proof.
  intros Hattr. unfold on_click, text_to_copy.
  assert (truthy (default "" (data_clipboard_text (the_button st))) = false) as ->
    by (by destruct Hattr as [-> | ->]).
  destruct (previousElementSibling (the_button st)) as [p|]; [|done].
  simpl. eexists. split; [done|]. simpl. split.
  - intros v -> Hv. by destruct v.
  - by intros [-> | ->].
Qed.

Lemma copy_falls_back_to_previous_element_witness :
  let field := {| sibling_value := Some "https://example.org/r/42";
                  sibling_textContent := "" |} in
  let st0 :=
    {| the_button := {| data_clipboard_text := None;
                        previousElementSibling := Some field;
                        innerHTML := "Copy"; classList := ["btn"] |};
       clipboard := ""; timers := []; console := [] |} in
  ∃ st', on_click Written st0 = Some st' ∧
         clipboard st' = "https://example.org/r/42".
Proof.
  intros field st0.
  destruct (copy_falls_back_to_previous_element st0 Written) as (st' & Hclick & Hval & _).
  - left. reflexivity.
  - exists st'. split; [exact Hclick|]. apply Hval; [reflexivity | discriminate].
Defined.

(** X15. After a successful copy the callback of the 2000 ms timer always
    leaves the control without btn-success; it leaves the control exactly as
    it was before the click if and only if the control did not carry
    btn-success before. *)
Theorem copy_then_revert_restores_button (st : state) :
  is_Some (text_to_copy (the_button st)) →
  ∃ st1 t,
    on_click Written st = Some st1 ∧
    timers st1 = timers st ++ [(2000, t)] ∧
    ("btn-success" ∉ classList (the_button (run_task t st1))) ∧
    (the_button (run_task t st1) = the_button st ↔
     "btn-success" ∉ classList (the_button st)).
Proof.
  intros [text Htext]. unfold on_click. rewrite Htext. simpl.
  eexists _, _. split; [done|]. split; [done|]. simpl.
  split; [apply classList_remove_elem|]. split.
  - intros Heq Hin. apply (classList_remove_elem "btn-success"
      (classList_add "btn-success" (classList (the_button st)))).
    unfold with_label in Heq. by rewrite <- Heq in Hin at 1.
  - intros Hnot. unfold with_label. simpl.
    rewrite classList_remove_add by done. by destruct (the_button st).
Qed.

Lemma copy_then_revert_restores_button_witness :
  let st0 :=
    {| the_button := {| data_clipboard_text := Some "abc";
                        previousElementSibling := None;
                        innerHTML := "Copy"; classList := ["btn"] |};
       clipboard := ""; timers := []; console := [] |} in
  ∃ st1 t,
    on_click Written st0 = Some st1 ∧
    timers st1 = [(2000, t)] ∧
    the_button (run_task t st1) = the_button st0.
Proof.
  intros st0.
  destruct (copy_then_revert_restores_button st0) as (st1 & t & Hclick & Htimers & _ & Hiff).
  - by eexists.
  - exists st1, t. split; [exact Hclick|]. split; [exact Htimers|].
    apply Hiff. simpl. rewrite list_elem_of_singleton. discriminate.
Defined.

(** X16. A second successful copy before the first timer has run saves the
    confirmation as the label to put back: once both timers have run, in the
    order they were set, the control still reads the confirmation, without
    btn-success, and no timer is left to restore the label it had. *)
Theorem copy_twice_keeps_confirmation (st : state) :
  is_Some (text_to_copy (the_button st)) →
  ∃ st1 st2 t1 t2,
    on_click Written st = Some st1 ∧
    on_click Written st1 = Some st2 ∧
    timers st2 = timers st ++ [(2000, t1); (2000, t2)] ∧
    let st' := run_task t2 (run_task t1 st2) in
    Clipboard.innerHTML (the_button st') = copied_label ∧
    "btn-success" ∉ classList (the_button st').
Proof.
  intros [text Htext].
  assert (Hclick : ∀ s, text_to_copy (the_button s) = Some text →
            on_click Written s =
              Some {| the_button :=
                        with_label copied_label
                          (classList_add "btn-success" (classList (the_button s)))
                          (the_button s);
                      clipboard := text;
                      timers := timers s ++ [(2000, Revert (Clipboard.innerHTML (the_button s)))];
                      console := console s |}).
  { intros s Hs. unfold on_click. by rewrite Hs. }
  eexists _, _, _, _. split; [by apply Hclick|]. split; [by apply Hclick|].
  simpl. split; [by rewrite <- app_assoc|]. split; [done|].
  apply classList_remove_elem.
Qed.

Lemma copy_twice_keeps_confirmation_witness :
  let st0 :=
    {| the_button := {| data_clipboard_text := Some "abc";
                        previousElementSibling := None;
                        innerHTML := "Copy"; classList := ["btn"] |};
       clipboard := ""; timers := []; console := [] |} in
  ∃ st1 st2 t1 t2,
    on_click Written st0 = Some st1 ∧
    on_click Written st1 = Some st2 ∧
    timers st2 = [(2000, t1); (2000, t2)] ∧
    Clipboard.innerHTML (the_button (run_task t2 (run_task t1 st2))) = copied_label.
Proof.
  intros st0.
  destruct (copy_twice_keeps_confirmation st0)
    as (st1 & st2 & t1 & t2 & H1 & H2 & Ht & Hlabel & _).
  - by eexists.
  - exists st1, st2, t1, t2. repeat split; assumption.
Defined.

End clipboard_more.

(** ** Tab persistence: triggers without an href, and several clicks *)

Section tabs_more.
Import Tabs.

(** X17. A click whose target has no href attribute (a trigger without
    one, or an element inside the trigger) stores the text null, and the
    next page load activates the first anchor whose href is that text, if
    there is one. *)
Theorem tab_click_without_href_stores_null
    (ls : gmap string string) (doc : list anchor) :
  on_click None ls !! "activeTab" = Some "null" ∧
  restore (on_click None ls) doc =
    Some match query_href "null" doc with Some a => Shown a | None => Nothing end.
Proof.
  assert (H : on_click None ls !! "activeTab" = Some "null")
    by apply lookup_insert_eq.
  split; [exact H|]. by apply restore_plain.
Qed.

(** X18. After any number of clicks on tab triggers the page load restores
    the tab of the last click: when its href is a non-empty text that the
    quoted selector carries literally, the first anchor with that href is
    activated, or nothing if there is none. *)
Theorem tab_last_click_is_restored
    (ls : gmap string string) (earlier : list (option string)) (h : string)
    (doc : list anchor) :
  h ≠ "" → css_plain h = true →
  restore (foldl (λ ls h, on_click h ls) ls (earlier ++ [Some h])) doc =
    Some match query_href h doc with Some a => Shown a | None => Nothing end.
Proof.
  intros Hne Hplain. rewrite foldl_app. simpl.
  apply restore_plain; [apply lookup_insert_eq | done..].
Qed.

Lemma tab_last_click_is_restored_witness :
  let home := {| anchor_id := 3; href := Some "#home" |} in
  let profile := {| anchor_id := 7; href := Some "#profile" |} in
  restore (foldl (λ ls h, on_click h ls) ∅ [Some "#home"; None; Some "#profile"])
          [home; profile] = Some (Shown profile).
Proof.
  intros home profile.
  apply (tab_last_click_is_restored ∅ [Some "#home"; None] "#profile" [home; profile]).
  - discriminate.
  - reflexivity.
Defined.

End tabs_more.

(** ** The page-load sweep and the alerts of [showAlert] *)

Section sweep.
Import Dom Alerts Sweep.

(** An element that the selector does not match can be inserted anywhere
    without changing what the selector finds. *)
Lemma filter_elements_insert_first (P : nat * string → Prop)
    `{!∀ e, Decision (P e)} p u t c h :
  ¬ P (u, c) →
  ∀ n, filter P (elements (insert_first p (Node u t c h []) n)) =
       filter P (elements n).
Proof.
  intros Hx. induction p as [|i p IH]; intros [u0 t0 c0 h0 kids]; simpl.
  - rewrite !filter_cons. by rewrite (decide_False (P:=P (u, c))).
  - assert (filter P (concat (elements <$> alter (insert_first p (Node u t c h [])) i kids))
            = filter P (concat (elements <$> kids))) as Hkids.
    { clear -IH. revert i. induction kids as [|k kids IHk]; intros [|i]; simpl; try done.
      - by rewrite !filter_app, IH.
      - rewrite !filter_app. f_equal. apply IHk. }
    by rewrite !filter_cons, Hkids.
Qed.

(** The inserted element is among the elements of the new tree. *)
Lemma elem_of_elements_insert_first p x n c0 :
  get p n = Some c0 →
  (uid x, className x) ∈ elements (insert_first p x n).
Proof.
  revert n. induction p as [|i p IH]; intros [u t c h kids] Hget; simpl in *.
  - right. apply elem_of_app. left. destruct x. by left.
  - right. destruct (kids !! i) as [k|] eqn:Hk; [|done]. simpl in Hget.
    apply list_elem_of_In, in_concat. exists (elements (insert_first p x k)).
    split; [|by apply list_elem_of_In, IH].
    apply list_elem_of_In, list_elem_of_fmap.
    exists (insert_first p x k). split; [done|].
    apply list_elem_of_lookup. exists i.
    by rewrite list_lookup_alter_eq, Hk.
Qed.

(** The class tokens of an alert whose severity is one word. *)
Lemma alert_class_tokens type permanent :
  forallb (λ c, negb (is_ascii_ws c)) (chars type) = true →
  class_tokens (alert_className type permanent) =
    ["alert"; "alert-" +:+ type; "alert-dismissible"; "fade"; "show"] ++
    (if permanent then ["alert-permanent"] else []).
Proof.
  intros Htype. unfold class_tokens, alert_className.
  rewrite !chars_app.
  set (tail := chars (if permanent then "alert-permanent" else "")).
  replace (chars "alert alert-" ++ chars type ++
           chars " alert-dismissible fade show " ++ tail)
    with (chars "alert" ++
          " "%char :: (chars "alert-" ++ chars type) ++
          " "%char :: (chars "alert-dismissible fade show " ++ tail))
    by reflexivity.
  rewrite split_ws_word; [|by repeat constructor|done]. simpl.
  f_equal.
  rewrite (split_ws_word (chars type) _ " "%char
             (chars "alert-dismissible fade show " ++ tail)); [| |done].
  - simpl. rewrite str_chars. f_equal. subst tail. by destruct permanent.
  - apply Forall_forall. intros c Hc.
    rewrite forallb_forall in Htype.
    apply list_elem_of_In, Htype in Hc. by destruct (is_ascii_ws c).
Qed.

Lemma dismissible_permanent type : dismissible (alert_className type true) = false.
Proof.
  unfold dismissible.
  rewrite (bool_decide_eq_true_2 _ (alert_className_permanent type)).
  apply andb_false_r.
Qed.

Lemma dismissible_alert type :
  forallb (λ c, negb (is_ascii_ws c)) (chars type) = true →
  dismissible (alert_className type false) = true ↔ type ≠ "permanent".
Proof.
  intros Htype. unfold dismissible. rewrite (alert_class_tokens _ false Htype).
  rewrite bool_decide_eq_true_2 by (by left). simpl.
  rewrite negb_true_iff, bool_decide_eq_false.
  rewrite !elem_of_cons, elem_of_nil. split.
  - intros H ->. apply H. right. by left.
  - intros H [?|[Heq|[?|[?|[?|[]]]]]]; try done.
    apply H. by injection Heq.
Qed.

Lemma elem_of_swept u b :
  u ∈ swept b ↔ ∃ c, (u, c) ∈ elements b ∧ dismissible c = true.
Proof.
  unfold swept. rewrite list_elem_of_fmap. split.
  - intros ([u' c] & -> & H). apply list_elem_of_filter in H as [Hd Hin].
    by exists c.
  - intros (c & Hin & Hd). exists (u, c). split; [done|].
    by apply list_elem_of_filter.
Qed.

(** X19. An alert shown with [permanent] true is outside the page-load
    sweep: shown before the sweep runs, it leaves the list of elements that
    the sweep closes as it was, and the sweep does not close it (no element
    of the page had its identity before). *)
Theorem sweep_spares_permanent_alert (type message : string) (pg : page) :
  let pg' := showAlert type message true pg in
  swept (body pg') = swept (body pg) ∧
  calls (sweep pg') = calls (sweep pg) ∧
  ((∀ e, e ∈ elements (body pg) → e.1 ≠ fresh pg) → fresh pg ∉ swept (body pg')).
Proof.
  intros pg'.
  assert (Hsame : swept (body pg') = swept (body pg)).
  { subst pg'. rewrite showAlert_body. unfold swept. f_equal.
    apply filter_elements_insert_first. simpl.
    by rewrite dismissible_permanent. }
  split; [exact Hsame|]. split.
  - unfold sweep. rewrite Hsame. by subst pg'.
  - intros Hfresh. rewrite Hsame, elem_of_swept. intros (c & Hin & _).
    by apply (Hfresh _ Hin).
Qed.

Lemma sweep_spares_permanent_alert_witness :
  let pg0 :=
    {| body := Node 0 "body" "" ""
                 [Node 1 "div" "container" ""
                    [Node 2 "div" "alert alert-info" "" []]];
       fresh := 3; timers := []; calls := [] |} in
  swept (body (showAlert "warning" "Maintenance tonight" true pg0)) = [2%nat] ∧
  3%nat ∉ swept (body (showAlert "warning" "Maintenance tonight" true pg0)).
Proof.
  intros pg0.
  destruct (sweep_spares_permanent_alert "warning" "Maintenance tonight" pg0)
    as (Hsame & _ & Hnot).
  split; [exact Hsame|]. apply Hnot.
  intros e He. simpl in He.
  repeat (apply elem_of_cons in He as [-> | He]; [discriminate|]).
  by apply elem_of_nil in He.
Defined.

(** X20. An alert shown with [permanent] false and a one-word severity
    before the page-load sweep runs is among the elements that the sweep
    closes, unless the severity is the word permanent, which gives the alert
    the class alert-permanent. *)
Theorem sweep_closes_shown_alert (type message : string) (pg : page) :
  forallb (λ c, negb (is_ascii_ws c)) (chars type) = true →
  (∀ e, e ∈ elements (body pg) → e.1 ≠ fresh pg) →
  let pg' := showAlert type message false pg in
  calls (sweep pg') = calls pg ++ (AlertClose <$> swept (body pg')) ∧
  (fresh pg ∈ swept (body pg') ↔ type ≠ "permanent").
Proof.
  intros Htype Hfresh pg'. split; [done|].
  rewrite <- (dismissible_alert _ Htype). subst pg'. rewrite showAlert_body.
  split.
  - intros Hin.
    destruct (dismissible (alert_className type false)) eqn:Hd; [done|].
    exfalso. unfold swept in Hin.
    rewrite filter_elements_insert_first in Hin by (simpl; by rewrite Hd).
    apply elem_of_swept in Hin as (c & Hin & _). by apply (Hfresh _ Hin).
  - intros Hd. apply elem_of_swept. exists (alert_className type false).
    split; [|done].
    destruct (alert_container_get (body pg)) as [c0 Hc0].
    apply (elem_of_elements_insert_first _
             (Node (fresh pg) "div" (alert_className type false) (alert_markup message) [])
             _ _ Hc0).
Qed.

Lemma sweep_closes_shown_alert_witness :
  let pg0 :=
    {| body := Node 0 "body" "" "" [Node 1 "div" "container" "" []];
       fresh := 2; timers := []; calls := [] |} in
  AlertClose 2 ∈ calls (sweep (showAlert "success" "Saved" false pg0)).
Proof.
  intros pg0.
  destruct (sweep_closes_shown_alert "success" "Saved" pg0) as [Hcalls Hin].
  - reflexivity.
  - intros e He. simpl in He.
    repeat (apply elem_of_cons in He as [-> | He]; [discriminate|]).
    by apply elem_of_nil in He.
  - rewrite Hcalls. apply elem_of_app. right.
    apply list_elem_of_fmap. exists 2%nat. split; [reflexivity|].
    apply Hin. discriminate.
Defined.

End sweep.

(** ** Password toggle *)

Section password_toggle.
Import Dom PasswordToggle.

(** X21. A click on a password toggle that has a field before it and an
    icon inside it returns, and afterwards the field is a text field if it
    was a password field and a password field if it was anything else; the
    icon carries fa-eye-slash exactly when the field is now a text field
    and fa-eye exactly when it is now a password field, whatever the icon
    carried before, and its other classes are as they were. *)
Theorem toggle_icon_follows_type (st : state) (input : field) (cl : list string) :
  previousElementSibling st = Some input →
  icon st = Some cl →
  ∃ input' cl',
    on_click st = Returned {| previousElementSibling := Some input'; icon := Some cl' |} ∧
    (type input = "password" → type input' = "text") ∧
    (type input ≠ "password" → type input' = "password") ∧
    ("fa-eye-slash" ∈ cl' ↔ type input' = "text") ∧
    ("fa-eye" ∈ cl' ↔ type input' = "password") ∧
    ∀ tok, tok ≠ "fa-eye" → tok ≠ "fa-eye-slash" → tok ∈ cl' ↔ tok ∈ cl.
Proof.
  intros Hinput Hicon. unfold on_click, switch. rewrite Hinput, Hicon.
  case_decide as Htype; eexists _, _; (split; [reflexivity|]); simpl.
  - split; [done|]. split; [done|].
    rewrite !elem_of_classList_add, !elem_of_classList_remove.
    split; [|split].
    + split; [done|]. intros _. by left.
    + split; [|done]. by intros [?|[? _]].
    + intros tok H1 H2.
      rewrite elem_of_classList_add, elem_of_classList_remove. tauto.
  - split; [done|]. split; [done|].
    rewrite !elem_of_classList_add, !elem_of_classList_remove.
    split; [|split].
    + split; [|done]. by intros [?|[? _]].
    + split; [done|]. intros _. by left.
    + intros tok H1 H2.
      rewrite elem_of_classList_add, elem_of_classList_remove. tauto.
Qed.

Lemma toggle_icon_follows_type_witness :
  let st0 := {| previousElementSibling := Some {| type := "password" |};
                icon := Some ["fas"; "fa-eye"] |} in
  ∃ input' cl',
    on_click st0 = Returned {| previousElementSibling := Some input'; icon := Some cl' |} ∧
    type input' = "text" ∧
    ("fa-eye-slash" ∈ cl' ↔ type input' = "text") ∧
    ("fa-eye" ∈ cl' ↔ type input' = "password").
Proof.
  intros st0.
  destruct (toggle_icon_follows_type st0 {| type := "password" |} ["fas"; "fa-eye"]
              eq_refl eq_refl)
    as (input' & cl' & Hclick & Htext & _ & Hslash & Heye & _).
  exists input', cl'. split; [exact Hclick|]. split; [by apply Htext|].
  split; [exact Hslash | exact Heye].
Defined.

(** X22. Two clicks bring a password field back: from a password field
    whose icon carries fa-eye and not fa-eye-slash, the first click shows the
    text and the second hides it again, and the icon ends with the classes
    it started with. *)
Theorem toggle_twice_restores (st : state) (cl : list string) :
  previousElementSibling st = Some {| type := "password" |} →
  icon st = Some cl →
  "fa-eye" ∈ cl → "fa-eye-slash" ∉ cl →
  ∃ cl1 cl2,
    on_click st =
      Returned {| previousElementSibling := Some {| type := "text" |}; icon := Some cl1 |} ∧
    clicks 2 st =
      Returned {| previousElementSibling := Some {| type := "password" |}; icon := Some cl2 |} ∧
    ∀ tok, tok ∈ cl2 ↔ tok ∈ cl.
Proof.
  intros Hinput Hicon Heye Hslash.
  assert (Hfirst : on_click st =
            Returned {| previousElementSibling := Some {| type := "text" |};
                        icon := Some (classList_add "fa-eye-slash"
                                        (classList_remove "fa-eye" cl)) |}).
  { unfold on_click, switch. by rewrite Hinput, Hicon. }
  eexists _, _. split; [exact Hfirst|]. split.
  { simpl. rewrite Hfirst. reflexivity. }
  intros tok. simpl.
  repeat (rewrite elem_of_classList_add || rewrite elem_of_classList_remove).
  destruct (decide (tok = "fa-eye")) as [->|]; [tauto|].
  destruct (decide (tok = "fa-eye-slash")) as [->|]; [|tauto].
  split; [|done]. intros [?|[? _]]; done.
Qed.

Lemma toggle_twice_restores_witness :
  let st0 := {| previousElementSibling := Some {| type := "password" |};
                icon := Some ["fas"; "fa-eye"] |} in
  ∃ cl2,
    clicks 2 st0 =
      Returned {| previousElementSibling := Some {| type := "password" |}; icon := Some cl2 |} ∧
    ∀ tok, tok ∈ cl2 ↔ tok ∈ ["fas"; "fa-eye"].
Proof.
  intros st0.
  destruct (toggle_twice_restores st0 ["fas"; "fa-eye"]) as (cl1 & cl2 & _ & H2 & Hsame).
  - reflexivity.
  - reflexivity.
  - apply list_elem_of_further, list_elem_of_here.
  - intros H. repeat (apply elem_of_cons in H as [H|H]; [discriminate|]).
    by apply elem_of_nil in H.
  - exists cl2. split; [exact H2 | exact Hsame].
Defined.

(** X23. What is missing decides where the listener throws: with no
    element before the button it throws at once and nothing has changed;
    with a field but no icon in the button it throws after the assignment,
    so the field has switched all the same, between password and text. *)
Theorem toggle_throws_without_field_or_icon (st : state) :
  (previousElementSibling st = None → on_click st = Thrown st) ∧
  (∀ input, previousElementSibling st = Some input → icon st = None →
     ∃ input',
       on_click st = Thrown {| previousElementSibling := Some input'; icon := None |} ∧
       (type input = "password" → type input' = "text") ∧
       (type input ≠ "password" → type input' = "password")).
Proof.
  split.
  - intros H. unfold on_click. by rewrite H.
  - intros input Hinput Hicon. unfold on_click, switch. rewrite Hinput, Hicon.
    case_decide; eexists; (split; [reflexivity|]); by simpl.
Qed.

Lemma toggle_throws_without_field_or_icon_witness :
  let st0 := {| previousElementSibling := Some {| type := "password" |};
                icon := None |} in
  ∃ input',
    on_click st0 = Thrown {| previousElementSibling := Some input'; icon := None |} ∧
    type input' = "text".
Proof.
  intros st0.
  destruct (proj2 (toggle_throws_without_field_or_icon st0) {| type := "password" |}
              eq_refl eq_refl) as (input' & Hclick & Htext & _).
  exists input'. split; [exact Hclick | by apply Htext].
Defined.

End password_toggle.

(** ** Smooth scrolling *)

Section scroll.
Import Validation Scroll.

Lemma query_id_Some name doc x :
  query_id name doc = Some x ↔
  ∃ i, doc !! i = Some x ∧ id x = name ∧
       ∀ j y, doc !! j = Some y → (j < i)%nat → id y ≠ name.
Proof.
  unfold query_id. split.
  - destruct (list_find _ doc) as [[i y]|] eqn:E; [|done].
    simpl. intros [= ->]. apply list_find_Some in E. by exists i.
  - intros (i & Hi & Hid & Hfirst).
    by rewrite (proj2 (list_find_Some _ doc i x)).
Qed.

Lemma query_id_None name doc :
  query_id name doc = None ↔ ∀ x, x ∈ doc → id x ≠ name.
Proof.
  unfold query_id. split.
  - destruct (list_find _ doc) as [[i y]|] eqn:E; [done|].
    intros _. apply list_find_None in E. by apply Forall_forall.
  - intros H. rewrite (proj2 (list_find_None _ doc)); [done|].
    by apply Forall_forall.
Qed.

Lemma id_selector_hash href name : id_selector href = Some name → href = "#" +:+ name.
Proof.
  unfold id_selector. intros H. repeat case_match; by simplify_eq.
Qed.

(** X24. A click on an in-page link always has its default prevented and
    its propagation left alone.  For the href # nothing else happens; for an
    href # followed by a plain identifier the window is asked to scroll to 80
    pixels above the first element with that id, and when no element has
    that id nothing scrolls. *)
Theorem scroll_click_prevents_default_and_scrolls
    (href : string) (doc : list element) (e : event) :
  defaultPrevented (on_click href doc e).1 = true ∧
  propagationStopped (on_click href doc e).1 = propagationStopped e ∧
  (href = "#" → (on_click href doc e).2 = Some NoScroll) ∧
  ∀ name, id_selector href = Some name →
    href = "#" +:+ name ∧
    ((∀ x, x ∈ doc → id x ≠ name) → (on_click href doc e).2 = Some NoScroll) ∧
    (∀ i x, doc !! i = Some x → id x = name →
       (∀ j y, doc !! j = Some y → (j < i)%nat → id y ≠ name) →
       (on_click href doc e).2 = Some (ScrollTo (offsetTop x - 80))).
Proof.
  unfold on_click. split; [|split; [|split]].
  - by repeat case_match.
  - by repeat case_match.
  - intros ->. by rewrite decide_True.
  - intros name Hsel. split; [by apply id_selector_hash|].
    assert (href ≠ "#") as Hne by (by intros ->).
    rewrite decide_False, Hsel by done. split.
    + intros Hnone. by rewrite (proj2 (query_id_None name doc) Hnone).
    + intros i x Hi Hid Hfirst.
      rewrite (proj2 (query_id_Some name doc x)); [done|]. by exists i.
Qed.

Lemma scroll_click_prevents_default_and_scrolls_witness :
  let doc := [ {| id := "top"; offsetTop := 0 |};
               {| id := "pricing"; offsetTop := 1240 |} ] in
  let e := {| defaultPrevented := false; propagationStopped := false |} in
  (on_click "#pricing" doc e).2 = Some (ScrollTo 1160) ∧
  (on_click "#faq" doc e).2 = Some NoScroll ∧
  (on_click "#" doc e).2 = Some NoScroll.
Proof.
  intros doc e.
  destruct (scroll_click_prevents_default_and_scrolls "#pricing" doc e)
    as (_ & _ & _ & Hfound).
  destruct (scroll_click_prevents_default_and_scrolls "#faq" doc e)
    as (_ & _ & _ & Hmissing).
  destruct (scroll_click_prevents_default_and_scrolls "#" doc e)
    as (_ & _ & Hhash & _).
  split; [|split].
  - apply (proj2 (proj2 (Hfound "pricing" eq_refl)) 1%nat
             {| id := "pricing"; offsetTop := 1240 |}); [reflexivity..|].
    intros j y Hj Hlt. destruct j as [|j]; [|lia].
    injection Hj as <-. discriminate.
  - apply (proj1 (proj2 (Hmissing "faq" eq_refl))).
    intros x Hx.
    repeat (apply elem_of_cons in Hx as [-> | Hx]; [discriminate|]).
    by apply elem_of_nil in Hx.
  - by apply Hhash.
Defined.

End scroll.

(** ** Debounce *)

Section debounce.
Import Debounce.
Context {A : Type}.
Variable wait : N.

Lemma clearTimeout_nil (h : option nat) : clearTimeout (A:=A) h [] = [].
Proof. by destruct h. Qed.

Lemma clearTimeout_own (t : timer A) : clearTimeout (Some (handle t)) [t] = [].
Proof. simpl. by rewrite filter_cons_False by (by intros ?). Qed.

(** A call leaves its own timer as the only one. *)
Lemma call_timers acc a (st : state A) :
  pending_is_last_call wait acc st →
  timers (call wait a st) =
    [{| handle := next_handle st; due := now st + wait; args := a |}].
Proof.
  intros [Hnone | (t & a0 & el & Hone & Hto & _)]; unfold call; simpl.
  - by rewrite Hnone, clearTimeout_nil.
  - by rewrite Hone, Hto, clearTimeout_own.
Qed.

(** What [fire] does under the invariant. *)
Lemma fire_Some acc i (st st' : state A) :
  pending_is_last_call wait acc st →
  fire i st = Some st' →
  ∃ t, timers st = [t] ∧ handle t = i ∧ due t ≤ now st ∧
       st' = {| now := now st; timeout := timeout st; timers := [];
                next_handle := next_handle st;
                invoked := invoked st ++ [(now st, args t)] |}.
Proof.
  intros [Hnone | (t & a0 & el & Hone & Hto & _)]; unfold fire.
  - by rewrite Hnone.
  - rewrite Hone. simpl. case_decide as Hi; [|done]. simpl.
    destruct (due t <=? now st) eqn:Hdue; [|done].
    intros [= <-]. exists t. split; [done|]. split; [done|].
    split; [by apply N.leb_le|].
    unfold later. simpl.
    rewrite filter_cons_False by (by intros ?).
    by rewrite filter_nil, clearTimeout_nil.
Qed.

Lemma exec_invariant acc e (st st' : state A) :
  pending_is_last_call wait acc st →
  exec wait st e = Some st' →
  pending_is_last_call wait (last_call acc [e]) st'.
Proof.
  intros Hinv. destruct e as [a|d|i]; simpl.
  - intros [= <-]. right. eexists _, a, 0.
    split; [by eapply call_timers|]. simpl.
    split; [done|]. split; [done|]. split; [done|]. lia.
  - intros [= <-]. destruct Hinv as [Hnone | (t & a0 & el & Hone & Hto & -> & Ha & Hdue)].
    + by left.
    + right. exists t, a0, (el + d). simpl. repeat split; try done. lia.
  - intros Hfire. destruct (fire_Some _ _ _ _ Hinv Hfire) as (t & _ & _ & _ & ->).
    by left.
Qed.

Lemma last_call_cons acc (e : @step A) trace :
  last_call acc (e :: trace) = last_call (last_call acc [e]) trace.
Proof. by destruct e. Qed.

Lemma run_invariant trace :
  ∀ acc (st st' : state A),
    pending_is_last_call wait acc st →
    run wait st trace = Some st' →
    pending_is_last_call wait (last_call acc trace) st'.
Proof.
  induction trace as [|e trace IH]; intros acc st st' Hinv Hrun.
  - simpl in *. by simplify_eq.
  - simpl in Hrun. destruct (exec wait st e) as [st1|] eqn:He; [|done].
    simpl in Hrun. rewrite last_call_cons.
    eapply IH; [|exact Hrun]. by eapply exec_invariant.
Qed.

Lemma init_invariant : pending_is_last_call wait None (init (A:=A)).
Proof. by left. Qed.

Lemma run_count trace :
  ∀ acc (st st' : state A),
    pending_is_last_call wait acc st →
    run wait st trace = Some st' →
    (length (invoked st') + length (timers st') ≤
     length (invoked st) + length (timers st) + calls_in trace)%nat.
Proof.
  induction trace as [|e trace IH]; intros acc st st' Hinv Hrun.
  - simpl in *. simplify_eq. unfold calls_in. simpl. lia.
  - simpl in Hrun. destruct (exec wait st e) as [st1|] eqn:He; [|done].
    simpl in Hrun.
    pose proof (exec_invariant _ _ _ _ Hinv He) as Hinv1.
    specialize (IH _ _ _ Hinv1 Hrun).
    assert (length (invoked st1) + length (timers st1) + calls_in trace ≤
            length (invoked st) + length (timers st) + calls_in (e :: trace))%nat;
      [|lia].
    clear IH Hrun Hinv1. unfold calls_in. destruct e as [a|d|i]; simpl in He.
    + injection He as <-. rewrite (call_timers _ _ _ Hinv).
      rewrite filter_cons_True by done. simpl. lia.
    + injection He as <-. rewrite filter_cons_False by done. simpl. lia.
    + destruct (fire_Some _ _ _ _ Hinv He) as (t & Hone & _ & _ & ->).
      rewrite filter_cons_False by done. simpl.
      rewrite Hone, length_app. simpl. lia.
Qed.

(** X25. Whatever the history of calls, waiting and timers running, the
    debounced function keeps at most one timer active; that timer carries
    the arguments of the most recent call and is due [wait] milliseconds
    after it; and [func] has run at most once per call. *)
Theorem debounce_keeps_one_timer (trace : list (@step A)) (st : state A) :
  run wait init trace = Some st →
  (length (timers st) ≤ 1)%nat ∧
  (∀ t, t ∈ timers st →
     timeout st = Some (handle t) ∧
     ∃ el, last_call None trace = Some (args t, el) ∧ due t + el = now st + wait) ∧
  (length (invoked st) + length (timers st) ≤ calls_in trace)%nat.
Proof.
  intros Hrun.
  pose proof (run_invariant _ _ _ _ init_invariant Hrun) as Hinv.
  pose proof (run_count _ _ _ _ init_invariant Hrun) as Hcount.
  split; [|split].
  - destruct Hinv as [-> | (t & a & el & -> & _)]; simpl; lia.
  - intros t Ht.
    destruct Hinv as [Hnone | (t' & a & el & Hone & Hto & Hlast & Ha & Hdue)].
    + rewrite Hnone in Ht. by apply elem_of_nil in Ht.
    + rewrite Hone in Ht. apply list_elem_of_singleton in Ht as ->.
      split; [done|]. exists el. by rewrite Ha.
  - simpl in Hcount. lia.
Qed.

(** X26. [func] runs only after a quiet period: whenever a timer of the
    debounced function runs, at least [wait] milliseconds have passed since
    the most recent call, [func] is called once, with the arguments of that
    most recent call, and no timer is left. *)
Theorem debounce_runs_after_quiet_period
    (trace : list (@step A)) (i : nat) (st st' : state A) :
  run wait init trace = Some st →
  fire i st = Some st' →
  ∃ a el,
    last_call None trace = Some (a, el) ∧
    wait ≤ el ∧
    invoked st' = invoked st ++ [(now st, a)] ∧
    timers st' = [].
Proof.
  intros Hrun Hfire.
  pose proof (run_invariant _ _ _ _ init_invariant Hrun) as Hinv.
  destruct (fire_Some _ _ _ _ Hinv Hfire) as (t & Hone & _ & Hdue & ->).
  destruct Hinv as [Hnone | (t' & a & el & Hone' & _ & Hlast & Ha & Heq)].
  - by rewrite Hnone in Hone.
  - rewrite Hone in Hone'. injection Hone' as <-.
    exists a, el. split; [done|]. split; [lia|]. simpl. by rewrite Ha.
Qed.

(** X27. The last call of a burst gets through: after any history, a call
    followed by [wait] milliseconds or more without a call lets the timer of
    that call run, and then [func] has been called exactly once more, with
    the arguments of that call; a call that was still waiting before it has
    been dropped. *)
Theorem debounce_last_call_gets_through
    (trace : list (@step A)) (st : state A) (a : A) (d : N) :
  run wait init trace = Some st →
  wait ≤ d →
  ∃ st',
    run wait st [Call a; Elapse d; Fire (next_handle st)] = Some st' ∧
    invoked st' = invoked st ++ [(now st + d, a)] ∧
    timers st' = [].
Proof.
  intros Hrun Hd.
  pose proof (run_invariant _ _ _ _ init_invariant Hrun) as Hinv.
  pose proof (call_timers _ a _ Hinv) as Hcall.
  change (run wait st [Call a; Elapse d; Fire (next_handle st)])
    with (fire (next_handle st) (elapse d (call wait a st)) ≫= Some).
  unfold fire.
  change (timers (elapse d (call wait a st))) with (timers (call wait a st)).
  rewrite Hcall. simpl.
  rewrite decide_True by done. simpl.
  rewrite (proj2 (N.leb_le _ _)) by lia. simpl.
  eexists. split; [reflexivity|]. simpl.
  rewrite filter_cons_False by (by intros ?).
  by rewrite !filter_nil.
Qed.

End debounce.

(** A search box debounced by 300 ms while a, ab and abc are typed. *)

Section debounce_typing.
Import Debounce.

Lemma debounce_keeps_one_timer_witness :
  ∃ st,
    run (A:=string) 300 init
      [Call "a"; Elapse 100; Call "ab"; Elapse 100; Call "abc"] = Some st ∧
    (length (timers st) ≤ 1)%nat ∧
    (∀ t, t ∈ timers st → args t = "abc" ∧ due t = 500) ∧
    invoked st = [].
Proof.
  eexists. split; [reflexivity|].
  destruct (debounce_keeps_one_timer (A:=string) 300
              [Call "a"; Elapse 100; Call "ab"; Elapse 100; Call "abc"] _ eq_refl)
    as (Hone & Hlast & _).
  split; [exact Hone|]. split; [|reflexivity].
  intros t Ht. destruct (Hlast t Ht) as (_ & el & Hel & Hdue).
  simpl in Hel. injection Hel as <- <-. simpl in Hdue. split; [done|]. lia.
Defined.

Lemma debounce_runs_after_quiet_period_witness :
  ∃ st st',
    run (A:=string) 300 init
      [Call "a"; Elapse 100; Call "ab"; Elapse 350] = Some st ∧
    fire 2 st = Some st' ∧
    invoked st' = [(450, "ab")] ∧
    timers st' = [].
Proof.
  eexists _, _. split; [reflexivity|]. split; [reflexivity|].
  destruct (debounce_runs_after_quiet_period (A:=string) 300
              [Call "a"; Elapse 100; Call "ab"; Elapse 350] 2 _ _ eq_refl eq_refl)
    as (a & el & Hlast & _ & Hinv & Htimers).
  simpl in Hlast. injection Hlast as <- <-.
  split; [exact Hinv | exact Htimers].
Defined.

Lemma debounce_last_call_gets_through_witness :
  ∃ st st',
    run (A:=string) 300 init [Call "a"; Elapse 100] = Some st ∧
    run 300 st [Call "ab"; Elapse 300; Fire 2] = Some st' ∧
    invoked st' = [(400, "ab")] ∧
    timers st' = [].
Proof.
  eexists. 
  destruct (debounce_last_call_gets_through (A:=string) 300
              [Call "a"; Elapse 100] _ "ab" 300 eq_refl) as (st' & H).
  - lia.
  - exists st'. split; [reflexivity | exact H].
Defined.

End debounce_typing.

(** ** Alerts shown one after the other *)

Section alert_stack.
Import Dom Alerts.

Lemma query_container_false n :
  query_container true n = None → query_container false n = None.
Proof.
  destruct n as [u t c h kids]. simpl.
  by destruct (has_container_class _).
Qed.

(** A scan that finds nothing finds nothing when more tags count as seen. *)
Lemma scan_children_None_more l :
  ∀ seen seen' i i',
    (∀ t, t ∈ seen → t ∈ seen') →
    scan_children query_container seen i l = None →
    scan_children query_container seen' i' l = None.
Proof.
  induction l as [|k l IH]; intros seen seen' i i' Hsub; simpl; [done|].
  destruct (query_container (bool_decide (tag k ∉ seen)) k) eqn:Hq; [done|].
  intros Hrest.
  assert (query_container (bool_decide (tag k ∉ seen')) k = None) as ->.
  { destruct (bool_decide (tag k ∉ seen')) eqn:Hb'.
    - apply bool_decide_eq_true in Hb'.
      rewrite bool_decide_eq_true_2 in Hq; [done|].
      intros H. by apply Hb', Hsub.
    - destruct (bool_decide (tag k ∉ seen)); [by apply query_container_false | done]. }
  eapply IH; [|exact Hrest].
  intros t. rewrite !elem_of_cons. intros [->|?]; [by left | right; by apply Hsub].
Qed.

Lemma tag_insert_first p x n : tag (insert_first p x n) = tag n.
Proof. destruct n, p; done. Qed.

Lemma has_container_class_insert_first p x n :
  has_container_class (insert_first p x n) = has_container_class n.
Proof. destruct n, p; done. Qed.

(** A scan that stops at a child stops there when that child is replaced by
    one with the same tag on which the query answers the same. *)
Lemma scan_children_alter (f : node → node) p' :
  (∀ k, tag (f k) = tag k) →
  ∀ l seen i0 j,
    scan_children query_container seen i0 l = Some ((i0 + j)%nat :: p') →
    (∀ k fot, l !! j = Some k → query_container fot k = Some p' →
              query_container fot (f k) = Some p') →
    scan_children query_container seen i0 (alter f j l) = Some ((i0 + j)%nat :: p').
Proof.
  intros Htag. induction l as [|k l IH]; intros seen i0 j Hscan Hf; [done|].
  simpl in Hscan.
  destruct (query_container (bool_decide (tag k ∉ seen)) k) as [p0|] eqn:Hq.
  - injection Hscan as Hi <-. assert (j = 0%nat) as -> by lia.
    change (alter f 0%nat (k :: l)) with (f k :: l).
    cbn [scan_children]. rewrite Htag, (Hf k _ eq_refl Hq).
    by rewrite Nat.add_0_r.
  - destruct (scan_children_Some _ _ _ _ _ Hscan) as (j' & k' & fot & p'' & Heq & _).
    injection Heq as Hi _. assert (j = S j') as -> by lia.
    change (alter f (S j') (k :: l)) with (k :: alter f j' l).
    cbn [scan_children]. rewrite Hq.
    replace (i0 + S j')%nat with (S i0 + j')%nat in * by lia.
    apply IH; [exact Hscan|]. intros k0 fot0 Hk0. by apply Hf.
Qed.

(** Inserting, as the first child of the element that the query finds, an
    element without children that is no container leaves the query's answer
    as it was. *)
Lemma query_container_insert_first x :
  has_container_class x = false → children x = [] →
  ∀ p n fot, query_container fot n = Some p →
    query_container fot (insert_first p x n) = Some p.
Proof.
  intros Hx Hkids. induction p as [|i p IH]; intros [u t c h kids] fot Hq.
  - simpl in Hq |- *.
    change (has_container_class (Node u t c h (x :: kids)))
      with (has_container_class (Node u t c h kids)).
    destruct (fot && has_container_class (Node u t c h kids)); [done|].
    destruct (scan_children_Some _ _ _ _ _ Hq) as (j & k & f & p' & Heq & _).
    discriminate.
  - simpl in Hq |- *.
    change (has_container_class (Node u t c h (alter (insert_first p x) i kids)))
      with (has_container_class (Node u t c h kids)).
    destruct (fot && has_container_class (Node u t c h kids)); [done|].
    apply (scan_children_alter (insert_first p x) p (tag_insert_first p x) kids [] 0%nat i);
      [exact Hq|].
    intros k fot0 _. apply IH.
Qed.

Lemma query_container_insert_body x b :
  has_container_class x = false → children x = [] →
  query_container true b = None →
  query_container true (insert_first [] x b) = None.
Proof.
  intros Hx Hkids. destruct b as [u t c h kids]. simpl.
  change (has_container_class (Node u t c h (x :: kids)))
    with (has_container_class (Node u t c h kids)).
  destruct (has_container_class (Node u t c h kids)); [done|].
  intros Hscan.
  assert (query_container true x = None) as ->.
  { destruct x as [ux tx cx hx kx]. simpl in Hkids. subst kx.
    simpl. by rewrite Hx. }
  apply (scan_children_None_more kids [] [tag x] 0%nat 1%nat); [|exact Hscan].
  intros t0 Ht0. by apply elem_of_nil in Ht0.
Qed.

Lemma alert_container_insert_first x b :
  has_container_class x = false → children x = [] →
  alert_container (insert_first (alert_container b) x b) = alert_container b.
Proof.
  intros Hx Hkids. unfold alert_container.
  destruct (query_container true b) as [p|] eqn:Hq.
  - change (default [] (Some p)) with p.
    by rewrite (query_container_insert_first x Hx Hkids p b true Hq).
  - change (default [] (@None path)) with (@nil nat).
    by rewrite (query_container_insert_body x b Hx Hkids Hq).
Qed.

Lemma alert_not_container u type permanent message :
  forallb (λ c, negb (is_ascii_ws c)) (chars type) = true →
  has_container_class
    (Node u "div" (alert_className type permanent) (alert_markup message) []) = false.
Proof.
  intros Htype. unfold has_container_class. simpl className.
  rewrite (alert_class_tokens _ _ Htype).
  apply bool_decide_eq_false. rewrite elem_of_app, !elem_of_cons, elem_of_nil.
  intros [[?|[?|[?|[?|[?|[]]]]]]|H]; try done.
  destruct permanent.
  - apply list_elem_of_singleton in H. done.
  - by apply elem_of_nil in H.
Qed.

Lemma showAlert_fresh type message permanent pg :
  fresh (showAlert type message permanent pg) = S (fresh pg).
Proof. unfold showAlert. by destruct permanent. Qed.

(** X28. Alerts stack newest first in one place: after an alert with a
    one-word severity has been shown, the alert container is the element it
    was before, and a second alert is inserted there above the first, so the
    container then holds the second alert, the first alert and, after them,
    what it held at the start. *)
Theorem showAlert_stacks_newest_first
    (type1 message1 type2 message2 : string) (permanent1 permanent2 : bool)
    (pg : page) :
  forallb (λ c, negb (is_ascii_ws c)) (chars type1) = true →
  let pg1 := showAlert type1 message1 permanent1 pg in
  let pg2 := showAlert type2 message2 permanent2 pg1 in
  let place := alert_container (body pg) in
  alert_container (body pg1) = place ∧
  ∃ container,
    get place (body pg) = Some container ∧
    get place (body pg2) =
      Some (Node (uid container) (tag container) (className container)
                 (innerHTML container)
                 (Node (S (fresh pg)) "div" (alert_className type2 permanent2)
                       (alert_markup message2) [] ::
                  Node (fresh pg) "div" (alert_className type1 permanent1)
                       (alert_markup message1) [] ::
                  children container)).
Proof.
  intros Htype pg1 pg2 place.
  assert (Hplace : alert_container (body pg1) = place).
  { subst pg1 place. rewrite showAlert_body.
    apply alert_container_insert_first; [|done].
    by apply alert_not_container. }
  split; [exact Hplace|].
  destruct (alert_container_get (body pg)) as [c Hc]. fold place in Hc.
  exists c. split; [exact Hc|].
  subst pg2. rewrite showAlert_body, Hplace.
  assert (Hfirst : get place (body pg1) =
            Some (Node (uid c) (tag c) (className c) (innerHTML c)
                       (Node (fresh pg) "div" (alert_className type1 permanent1)
                             (alert_markup message1) [] :: children c))).
  { subst pg1. rewrite showAlert_body. by apply get_insert_first. }
  rewrite (get_insert_first _ _ _ _ Hfirst). simpl.
  subst pg1. by rewrite showAlert_fresh.
Qed.

Lemma showAlert_stacks_newest_first_witness :
  let pg0 :=
    {| body := Node 0 "body" "" ""
                 [Node 1 "nav" "navbar" "" []; Node 2 "main" "container py-4" "" []];
       fresh := 3; timers := []; calls := [] |} in
  get [1%nat] (body (showAlert "danger" "second" false
                       (showAlert "success" "first" false pg0))) =
    Some (Node 2 "main" "container py-4" ""
            [Node 4 "div" (alert_className "danger" false) (alert_markup "second") [];
             Node 3 "div" (alert_className "success" false) (alert_markup "first") []]).
Proof.
  intros pg0.
  destruct (showAlert_stacks_newest_first "success" "first" "danger" "second"
              false false pg0 eq_refl) as (_ & container & Hc & Hget).
  injection Hc as <-. exact Hget.
Defined.

End alert_stack.
